(** * FreGrad inference driver: noise-schedule retiming and reverse diffusion

    A shallow embedding of [inference.py]: the schedule arithmetic of [main]
    (cumulative products, the time-warp search), the reverse-diffusion loop
    shared by [predict] and [main], the command-line schedule override and
    the post-processing switch.

    Numbers.  The program computes in binary64 (numpy) and binary32 (torch).
    The development has two models of the same lines.  In the first every
    array element and tensor element is a real number: it is about the
    arithmetic the program writes down, carried out exactly, and a statement
    proved over it says so.  The second, [Binary64], computes as numpy does,
    with rounding, underflow, infinities and NaN: the runs on which the exact
    statements fail are evaluated there, and what holds of every run is
    proved there.  [x ** 0.5] is the square root. *)

From Stdlib Require Import String Ascii DecimalString.
From Stdlib Require Import PrimInt63 PrimFloat.
From Stdlib Require SpecFloat FloatOps FloatAxioms.
From Stdlib Require Import Reals Lra Lia List Sorted ZArith Bool.
Import ListNotations.

Open Scope R_scope.

(** ** numpy: the array operations the driver uses *)
Module Numpy.

(** [a <= b] on array elements, as a boolean. *)
Definition Rleb (x y : R) : bool := if Rle_dec x y then true else false.

(** [1 - arr], elementwise. *)
Definition one_minus (arr : list R) : list R := map (fun b => 1 - b) arr.

(** [np.cumprod]: the running product, accumulated left to right. *)
Fixpoint cumprod_from (acc : R) (arr : list R) : list R :=
  match arr with
  | [] => []
  | x :: rest => let p := acc * x in p :: cumprod_from p rest
  end.

Definition cumprod (arr : list R) : list R :=
  match arr with
  | [] => []
  | x :: rest => x :: cumprod_from x rest
  end.

(** [np.linspace(start, stop, num)] for [num >= 0]: [num] evenly spaced
    samples, the end point included; one sample is [start] alone. *)
Definition linspace (start stop : R) (num : nat) : list R :=
  match num with
  | 0%nat => []
  | 1%nat => [start]
  | S div => map (fun i => start + INR i * ((stop - start) / INR div)) (seq 0 num)
  end.

(** [arr[i]] for an index known to be in range. *)
Definition item (arr : list R) (i : nat) : R := nth i arr 0.

End Numpy.

(** ** The schedule builder of [main] (lines 260-283) *)
Module Schedule.
Import Numpy.

(** A noise schedule the specification calls valid: every beta in (0,1). *)
Definition valid (schedule : list R) : Prop :=
  Forall (fun b => 0 < b < 1) schedule.

(** [alpha_cum = np.cumprod(1 - beta)]. *)
Definition alpha_of (beta : list R) : list R := one_minus beta.
Definition alpha_cum_of (beta : list R) : list R := cumprod (alpha_of beta).

(** The bracket test of line 277:
    [talpha_cum[t + 1] <= alpha_cum[s] <= talpha_cum[t]]. *)
Definition in_bracket (talpha_cum : list R) (a : R) (t : nat) : bool :=
  Rleb (item talpha_cum (t + 1)) a && Rleb a (item talpha_cum t).

(** Lines 278-280. *)
Definition twiddle (talpha_cum : list R) (a : R) (t : nat) : R :=
  (sqrt (item talpha_cum t) - sqrt a)
  / (sqrt (item talpha_cum t) - sqrt (item talpha_cum (t + 1))).

(** The inner [for t in ...] loop with its [break]: the value appended for
    one inference step, if any. *)
Fixpoint scan (talpha_cum : list R) (a : R) (ts : list nat) : option R :=
  match ts with
  | [] => None
  | t :: ts' =>
      if in_bracket talpha_cum a t
      then Some (INR t + twiddle talpha_cum a t)
      else scan talpha_cum a ts'
  end.

(** The outer loop over [s in range(len(inference_noise_schedule))]. *)
Definition time_warp (n_training n_inference : nat)
           (talpha_cum alpha_cum : list R) : list R :=
  flat_map
    (fun s =>
       match scan talpha_cum (item alpha_cum s) (seq 0 (n_training - 1)) with
       | Some v => [v]
       | None => []
       end)
    (seq 0 n_inference).

(** Lines 267-283: from the two schedules to [T]. *)
Definition build_T (training_noise_schedule inference_noise_schedule : list R)
  : list R :=
  let talpha_cum := alpha_cum_of training_noise_schedule in
  let alpha_cum := alpha_cum_of inference_noise_schedule in
  time_warp (length training_noise_schedule)
            (length inference_noise_schedule) talpha_cum alpha_cum.

(** What the specification calls the training schedule's cumulative-alpha
    range: between the last and the first entry of [talpha_cum]. *)
Definition in_range (talpha_cum : list R) (a : R) : Prop :=
  match talpha_cum with
  | [] => False
  | first :: _ => last talpha_cum 0 <= a <= first
  end.

End Schedule.

(** ** torch: tensors, the random generator and exceptions *)
Module Torch.

(** A rank-3 tensor, (batch, channel, sample), as nested lists. *)
Definition tensor : Type := list (list (list R)).

(** The spectrogram reaches [predict] with rank 2 or rank 3; the output of
    [squeeze(1)] has rank 2 when the squeezed dimension has size one. *)
Inductive array : Type :=
| Rank2 (m : list (list R))
| Rank3 (t : tensor).

Definition zip_with {A B C} (f : A -> B -> C) (l1 : list A) (l2 : list B)
  : list C :=
  map (fun p => f (fst p) (snd p)) (combine l1 l2).

(** Elementwise operations on tensors of one shape. *)
Definition tmap (f : R -> R) (t : tensor) : tensor := map (map (map f)) t.
Definition tzip (f : R -> R -> R) (a b : tensor) : tensor :=
  zip_with (zip_with (zip_with f)) a b.

Definition scale (c : R) (t : tensor) : tensor := tmap (Rmult c) t.
Definition sub (a b : tensor) : tensor := tzip Rminus a b.
Definition add (a b : tensor) : tensor := tzip Rplus a b.
Definition mul (a b : tensor) : tensor := tzip Rmult a b.

(** [torch.clamp(x, lo, hi)]. *)
Definition clamp1 (lo hi x : R) : R := Rmin (Rmax x lo) hi.
Definition clamp (t : tensor) (lo hi : R) : tensor := tmap (clamp1 lo hi) t.

Definition tForall (P : R -> Prop) (t : tensor) : Prop :=
  Forall (Forall (Forall P)) t.

(** [t.shape]. *)
Definition shape : Type := (nat * nat * nat)%type.
Definition shape_of (t : tensor) : shape :=
  (length t, length (hd [] t), length (hd [] (hd [] t))).

(** [spectrogram.unsqueeze(0)] when the rank is 2 (lines 131-132). *)
Definition batched (spectrogram : array) : tensor :=
  match spectrogram with
  | Rank2 m => [m]
  | Rank3 t => t
  end.

(** [t[:, 0:1, :]] and [t[:, 1:2, :]]. *)
Definition channel_slice (from to : nat) (t : tensor) : tensor :=
  map (fun example => firstn (to - from) (skipn from example)) t.

(** [t.squeeze(1)]. *)
Definition squeeze1 (t : tensor) : array :=
  if forallb (fun example => Nat.eqb (length example) 1) t
  then Rank2 (map (fun example => hd [] example) t)
  else Rank3 t.

(** The exceptions the modelled lines can raise. *)
Inductive exn : Type :=
| IndexError | ZeroDivisionError | ValueError | RuntimeError | AttributeError.

Inductive result (A : Type) : Type :=
| Ok (a : A)
| Raise (e : exn).
Arguments Ok {A} a.
Arguments Raise {A} e.

(** What a run does to its collaborators, in order: a draw from the global
    generator, a call of the denoising network with its time argument. *)
Inductive event : Type :=
| Randn (s : shape)
| Forward (t : R).

End Torch.

(** ** The reverse-diffusion sampler ([predict], and the same loop in [main]) *)
Module Sampler.
Import Numpy Torch.

Section WithCollaborators.

(** The state of torch's global generator and its normal draw. *)
Variable G : Type.
Variable randn : G -> shape -> tensor * G.

(** [model(audio, spectrogram, t, global_cond).squeeze(1)]. *)
Variable model : tensor -> tensor -> R -> option tensor -> tensor.

Record world : Type := World { rng : G; trace : list event }.

(** Computations that read and advance the world, or raise. *)
Definition M (A : Type) : Type := world -> result (A * world).

Definition ret {A} (a : A) : M A := fun w => Ok (a, w).
Definition raise {A} (e : exn) : M A := fun _ => Raise e.
Definition bind {A B} (c : M A) (k : A -> M B) : M B :=
  fun w => match c w with
           | Ok (a, w') => k a w'
           | Raise e => Raise e
           end.

Notation "'let*' x ':=' c 'in' k" := (bind c (fun x => k))
  (at level 10, x name, c at level 100, k at level 200).

(** [torch.randn(shape)] and [torch.randn_like(t)]. *)
Definition torch_randn (s : shape) : M tensor :=
  fun w => let (z, g) := randn (rng w) s in
           Ok (z, World g (trace w ++ [Randn s])).
Definition randn_like (t : tensor) : M tensor := torch_randn (shape_of t).

(** The network call, recorded. *)
Definition call_model (audio spectrogram : tensor) (t : R)
           (global_cond : option tensor) : M tensor :=
  fun w => Ok (model audio spectrogram t global_cond,
               World (rng w) (trace w ++ [Forward t])).

(** [arr[n]] with [n >= 0]: out of range raises [IndexError]. *)
Definition getitem (arr : list R) (n : nat) : M R :=
  match nth_error arr n with
  | Some x => ret x
  | None => raise IndexError
  end.

(** Lines 135-145 and 310-320: the initial noise. *)
Definition initial_audio (audio_channels hop_samples : Z)
           (spectrogram target_std : tensor) : M tensor :=
  let batch := length spectrogram in
  let frames := length (hd [] (hd [] spectrogram)) in
  if (audio_channels =? 0)%Z then raise ZeroDivisionError
  else
    let samples := (hop_samples * Z.of_nat frames / audio_channels)%Z in
    if ((audio_channels <? 0) || (samples <? 0))%Z then raise RuntimeError
    else
      let* z := torch_randn (batch, Z.to_nat audio_channels, Z.to_nat samples) in
      ret (mul z target_std).

(** Lines 148-167 and 322-338: the body of the loop at step [n]. *)
Definition iteration (alpha alpha_cum beta T : list R)
           (spectrogram target_std : tensor) (global_cond : option tensor)
           (n : nat) (audio : tensor) : M tensor :=
  let* alpha_n := getitem alpha n in
  let c1 := 1 / sqrt alpha_n in
  let* beta_n := getitem beta n in
  let* alpha_cum_n := getitem alpha_cum n in
  let c2 := beta_n / sqrt (1 - alpha_cum_n) in
  let* T_n := getitem T n in
  let* predicted := call_model audio spectrogram T_n global_cond in
  let audio := scale c1 (sub audio (scale c2 predicted)) in
  let* audio :=
    if (0 <? n)%nat then
      let* z := randn_like audio in
      let noise := mul z target_std in
      let* alpha_cum_prev := getitem alpha_cum (n - 1) in
      let* alpha_cum_n := getitem alpha_cum n in
      let* beta_n := getitem beta n in
      let sigma := sqrt ((1 - alpha_cum_prev) / (1 - alpha_cum_n) * beta_n) in
      ret (add audio (scale sigma noise))
    else ret audio in
  ret (clamp audio (-1) 1).

(** [range(len - 1, -1, -1)]. *)
Definition range_down (len : nat) : list nat := rev (seq 0 len).

(** A [for] loop threading the audio tensor. *)
Fixpoint for_each (ns : list nat) (body : nat -> tensor -> M tensor)
         (audio : tensor) : M tensor :=
  match ns with
  | [] => ret audio
  | n :: rest => let* audio := body n audio in for_each rest body audio
  end.

(** Lines 147-167 and 321-338: [for n in range(len(alpha) - 1, -1, -1)]. *)
Definition reverse_diffusion (alpha alpha_cum beta T : list R)
           (spectrogram target_std : tensor) (global_cond : option tensor)
           (audio : tensor) : M tensor :=
  for_each (range_down (length alpha))
           (iteration alpha alpha_cum beta T spectrogram target_std global_cond)
           audio.

(** [predict] (lines 118-169); [fast_sampling] is not read by its body. *)
Definition predict (audio_channels hop_samples : Z)
           (spectrogram : array) (target_std : tensor)
           (global_cond : option tensor) (fast_sampling : bool)
           (T alpha alpha_cum beta : list R) : M tensor :=
  let spectrogram := batched spectrogram in
  let* audio := initial_audio audio_channels hop_samples spectrogram target_std in
  reverse_diffusion alpha alpha_cum beta T spectrogram target_std global_cond audio.

End WithCollaborators.

Arguments World {G} rng trace.
Arguments rng {G} w.
Arguments trace {G} w.

End Sampler.

(** ** The driver [main]: schedule override, sampling, post-processing *)
Module Driver.
Import Numpy Torch Schedule Sampler.

(** The parsed command line, as far as the modelled lines read it. *)
Record args : Type := Args {
  step : option Z;
  fast : bool;
  fast_iter : option Z
}.

(** The saved hyperparameter object.  [enable_remove_cutoff_alias] is
    [None] when the object has no such attribute. *)
Record params : Type := Params {
  noise_schedule : list R;
  inference_noise_schedule : list R;
  audio_channels : Z;
  hop_samples : Z;
  enable_remove_cutoff_alias : option bool
}.

Definition set_inference_noise_schedule (p : params) (s : list R) : params :=
  Params (noise_schedule p) s (audio_channels p) (hop_samples p)
         (enable_remove_cutoff_alias p).

(** [np.linspace(1e-4, 0.05, T_OVERRIDE).tolist()]: a negative count raises. *)
Definition linear_schedule (t_override : Z) : result (list R) :=
  if (t_override <? 0)%Z then Raise ValueError
  else Ok (linspace (1 / 10000) (5 / 100) (Z.to_nat t_override)).

(** Lines 187-220: the schedule chosen for a given [--fast_iter], and
    whether the warning is printed. *)
Definition noise_override (p : params) (t_override : Z)
  : result (list R * bool) :=
  if (t_override =? 6)%Z then
    Ok (firstn 1 (noise_schedule p)
          ++ [215 / 10000; 45 / 1000; 8 / 100; 2 / 10; 5 / 10], false)
  else if (t_override =? 3)%Z then
    Ok (firstn 1 (noise_schedule p) ++ [1 / 10; 95 / 100], false)
  else if (t_override =? 2)%Z then
    Ok ([4 / 100; 95 / 100], false)
  else if (t_override =? 12)%Z then
    Ok ([1 / 10000; 5 / 10000; 8 / 10000; 1 / 1000; 5 / 1000; 8 / 1000;
         1 / 100; 5 / 100; 8 / 100; 1 / 10; 2 / 10; 5 / 10], false)
  else if (t_override =? 50)%Z then
    match linear_schedule t_override with
    | Ok s => Ok (s, false)
    | Raise e => Raise e
    end
  else
    match linear_schedule t_override with
    | Ok s => Ok (s, true)
    | Raise e => Raise e
    end.

(** Lines 184-229: the hyperparameters after the override, the value of
    [T_OVERRIDE] that names the output directory, the warning flag. *)
Definition override (a : args) (p : params)
  : result (params * option Z * bool) :=
  if fast a then
    match fast_iter a with
    | Some t_override =>
        match noise_override p t_override with
        | Ok (s, warned) =>
            Ok (set_inference_noise_schedule p s, Some t_override, warned)
        | Raise e => Raise e
        end
    | None =>
        Ok (p, Some (Z.of_nat (length (inference_noise_schedule p))), false)
    end
  else Ok (p, fast_iter a, false).

(** Whether the warning of line 218 reaches the console: the [print] comes
    after the call of [np.linspace], so an override that raises there has
    printed nothing. *)
Definition warning_printed (a : args) (p : params) : bool :=
  match override a p with
  | Ok (_, _, warned) => warned
  | Raise _ => false
  end.

(** Line 259. *)
Definition fast_sampling : bool := false.

(** The arrays of lines 260-283. *)
Record schedules : Type := Schedules {
  training_noise_schedule : list R;
  beta : list R;
  alpha : list R;
  alpha_cum : list R;
  T : list R
}.

(** Modelled from the spec: the constructor [FreGrad(params)] of model.py is
    not among the sources.  The network object exposes the saved
    hyperparameter object it was built from, so [model.params] is [params]. *)
Definition model_params (p : params) : params := p.

(** Lines 259-283.  The cast of [T] to binary32 (line 283) leaves a real
    number as it is. *)
Definition derive_schedules (p : params) : schedules :=
  let training := noise_schedule (model_params p) in
  let inference :=
    if fast_sampling
    then inference_noise_schedule (model_params p)
    else training in
  Schedules training inference (alpha_of inference) (alpha_cum_of inference)
            (build_T training inference).

(** [main] up to the arrays the sampling loop reads. *)
Definition main_schedules (a : args) (p : params)
  : result (params * schedules) :=
  match override a p with
  | Ok (p', _, _) => Ok (p', derive_schedules p')
  | Raise e => Raise e
  end.

Section WithCollaborators.

Variable G : Type.
Variable randn : G -> shape -> tensor * G.
Variable model : tensor -> tensor -> R -> option tensor -> tensor.

(** torchaudio's biquad filters and the inverse wavelet transform. *)
Variable highpass_biquad : tensor -> Z -> R -> tensor.
Variable lowpass_biquad : tensor -> Z -> R -> tensor.
Variable idwt : tensor * list tensor -> tensor.

(** Lines 308-338 for one example: [spectrogram] and [global_cond] are
    the values left by the conditioning block of lines 289-306. *)
Definition main_sample (p : params) (s : schedules)
           (spectrogram target_std : tensor) (global_cond : option tensor)
  : M G tensor :=
  bind G (initial_audio G randn (audio_channels (model_params p))
                        (hop_samples (model_params p)) spectrogram target_std)
       (reverse_diffusion G randn model (alpha s) (alpha_cum s) (beta s) (T s)
                          spectrogram target_std global_cond).

(** [remove_cutoff_alias] (lines 89-115). *)
Definition remove_cutoff_alias (lowpass highpass : tensor) (sr : Z)
  : tensor * tensor :=
  let lowpass := highpass_biquad lowpass (sr / 2)%Z 5 in
  let highpass := highpass_biquad highpass (sr / 2)%Z 5 in
  let lowpass := lowpass_biquad lowpass (sr / 2)%Z 5500 in
  let highpass := lowpass_biquad highpass (sr / 2)%Z 5500 in
  (lowpass, highpass).

(** Attribute access on the hyperparameter object. *)
Definition hasattr_enable_remove_cutoff_alias (p : params) : bool :=
  match enable_remove_cutoff_alias p with
  | Some _ => true
  | None => false
  end.

Definition getattr_enable_remove_cutoff_alias (p : params) : result bool :=
  match enable_remove_cutoff_alias p with
  | Some b => Ok b
  | None => Raise AttributeError
  end.

(** Line 341: [hasattr(...) and params.enable_remove_cutoff_alias]; the
    right operand is evaluated only when the left one is true. *)
Definition alias_removal_enabled (p : params) : result bool :=
  if hasattr_enable_remove_cutoff_alias p
  then getattr_enable_remove_cutoff_alias p
  else Ok false.

(** Lines 341-347. *)
Definition post_process (p : params) (audio : tensor) : result array :=
  match alias_removal_enabled p with
  | Raise e => Raise e
  | Ok enabled =>
      let '(l, h) :=
        if enabled
        then remove_cutoff_alias (channel_slice 0 1 audio)
                                 (channel_slice 1 2 audio) 22050
        else (channel_slice 0 1 audio, channel_slice 1 2 audio) in
      Ok (squeeze1 (idwt (l, [h])))
  end.

End WithCollaborators.

End Driver.

(** ** Section 4.2 of the specification, in its own words

    The update the specification prescribes for one sampler step, to be
    compared with [Sampler.iteration]. *)
Module Spec42.
Import Torch.

Definition c1 (alpha_n : R) : R := 1 / sqrt alpha_n.
Definition c2 (beta_n alpha_cum_n : R) : R := beta_n / sqrt (1 - alpha_cum_n).

(** [audio = c1 * (audio - c2 * f(audio, conditioning, T[n], aux_cond))]. *)
Definition denoise (alpha_n beta_n alpha_cum_n : R) (predicted audio : tensor)
  : tensor :=
  scale (c1 alpha_n) (sub audio (scale (c2 beta_n alpha_cum_n) predicted)).

Definition sigma (alpha_cum_prev alpha_cum_n beta_n : R) : R :=
  sqrt ((1 - alpha_cum_prev) / (1 - alpha_cum_n) * beta_n).

(** [audio += sigma * noise * target_std]. *)
Definition inject (sigma : R) (noise target_std audio : tensor) : tensor :=
  add audio (mul (scale sigma noise) target_std).

Definition unit_range (x : R) : Prop := -1 <= x <= 1.

End Spec42.

(** ** Stand-ins for the external collaborators, for concrete runs *)
Module Stub.
Import Torch.

Definition full (s : shape) (x : R) : tensor :=
  let '(b, c, l) := s in repeat (repeat (repeat x l) c) b.

(** A seeded generator: the state is a counter, a draw fills the tensor with
    the counter's value and advances it. *)
Definition randn (g : nat) (s : shape) : tensor * nat := (full s (INR g), S g).

(** The stub denoiser of the specification, [f(x, ...) = 0]. *)
Definition zero_model (audio spectrogram : tensor) (t : R)
           (global_cond : option tensor) : tensor :=
  tmap (fun _ => 0) audio.

(** A tensor of one example, one channel, one sample. *)
Definition one_sample (x : R) : tensor := [[[x]]].

(** Filters that pass their input through, and a transform that adds the
    first detail band to the approximation band. *)
Definition pass_biquad (x : tensor) (sample_rate : Z) (cutoff : R) : tensor := x.
Definition sum_idwt (bands : tensor * list tensor) : tensor :=
  match snd bands with
  | [] => fst bands
  | h :: _ => add (fst bands) h
  end.

End Stub.

(** ** Tensor shapes *)
Module Shapes.
Import Torch.

(** A tensor of shape (batch, channels, samples), every row of full length. *)
Definition has_shape (s : shape) (t : tensor) : Prop :=
  let '(batch, channels, samples) := s in
  length t = batch
  /\ Forall (fun example =>
               length example = channels
               /\ Forall (fun channel => length channel = samples) example) t.

(** The collaborators keep to the shapes they are asked for: a draw has the
    requested shape, the network's prediction has the shape of the audio. *)
Definition draws_requested_shape {G : Type} (randn : G -> shape -> tensor * G)
  : Prop :=
  forall g s, has_shape s (fst (randn g s)).
Definition predicts_audio_shape
           (model : tensor -> tensor -> R -> option tensor -> tensor) : Prop :=
  forall s audio spectrogram t global_cond,
    has_shape s audio -> has_shape s (model audio spectrogram t global_cond).

End Shapes.

(** ** Reading the trace of a run *)
Module Trace.
Import Torch.

(** The time arguments of the network calls, in call order. *)
Definition forward_times (tr : list event) : list R :=
  flat_map (fun e => match e with Forward t => [t] | Randn _ => [] end) tr.

(** How many draws the generator served. *)
Definition draws (tr : list event) : nat :=
  length (filter (fun e => match e with Randn _ => true | Forward _ => false end)
                 tr).

End Trace.

(** ** Checkpoints: [load_state_dict] and [restore_from_checkpoint] *)
Module Checkpoint.

(** The exceptions of lines 60-86: a missing file, a missing dictionary key,
    and whatever the network's own [load_state_dict] raises. *)
Inductive error : Type :=
| FileNotFoundError
| KeyError
| LoadError.

Inductive outcome (A : Type) : Type :=
| Done (a : A)
| Fail (e : error).
Arguments Done {A} a.
Arguments Fail {A} e.

(** [str(step)] inside the f-strings: [None] or a decimal integer. *)
Definition str_int (k : Z) : string := NilZero.string_of_int (Z.to_int k).
Definition str_step (step : option Z) : string :=
  match step with
  | Some k => str_int k
  | None => "None"%string
  end.

Section WithTorch.

(** Network weights, and a saved state for them. *)
Variable net : Type.
Variable state : Type.

(** [module.load_state_dict(state)] of [torch.nn.Module]. *)
Variable nn_load_state_dict : net -> state -> outcome net.

(** The dictionary [torch.load] returns, by the two keys that are read;
    [None] is an absent key. *)
Record checkpoint : Type := Ckpt {
  ck_model : option state;
  ck_step : option Z
}.

(** [torch.load(path)]. *)
Variable torch_load : string -> outcome checkpoint.

(** The [module] attribute of the model object: absent, a
    [torch.nn.Module] (the model is a parallel wrapper), or something else. *)
Inductive module_attr : Type :=
| NoModule
| IsModule (inner : net)
| NotAModule.

Record model_obj : Type := Model { own : net; module : module_attr }.

Definition getitem_model (state_dict : checkpoint) : outcome state :=
  match ck_model state_dict with
  | Some s => Done s
  | None => Fail KeyError
  end.

Definition getitem_step (state_dict : checkpoint) : outcome Z :=
  match ck_step state_dict with
  | Some k => Done k
  | None => Fail KeyError
  end.

(** [load_state_dict] (lines 60-66). *)
Definition load_state_dict (model : model_obj) (state_dict : checkpoint)
  : outcome (model_obj * Z) :=
  let loaded :=
    match module model with
    | IsModule inner =>
        match getitem_model state_dict with
        | Done s =>
            match nn_load_state_dict inner s with
            | Done inner' => Done (Model (own model) (IsModule inner'))
            | Fail e => Fail e
            end
        | Fail e => Fail e
        end
    | _ =>
        match getitem_model state_dict with
        | Done s =>
            match nn_load_state_dict (own model) s with
            | Done own' => Done (Model own' (module model))
            | Fail e => Fail e
            end
        | Fail e => Fail e
        end
    end in
  match loaded with
  | Done model' =>
      match getitem_step state_dict with
      | Done step => Done (model', step)
      | Fail e => Fail e
      end
  | Fail e => Fail e
  end.

(** The two paths of lines 72 and 79. *)
Definition step_path (model_dir filename : string) (step : option Z) : string :=
  (model_dir ++ "/" ++ filename ++ "-" ++ str_step step ++ ".pt")%string.
Definition default_path (model_dir filename : string) : string :=
  (model_dir ++ "/" ++ filename ++ ".pt")%string.

(** The body of the [try] (lines 71-76): what it prints and how it ends. *)
Definition try_step_file (model : model_obj) (model_dir : string)
           (step : option Z) (filename : string)
  : list string * outcome (model_obj * Z) :=
  match torch_load (step_path model_dir filename step) with
  | Fail e => ([], Fail e)
  | Done checkpoint =>
      match load_state_dict model checkpoint with
      | Fail e => ([], Fail e)
      | Done (model', step') =>
          (["Loaded " ++ step_path model_dir filename (Some step')]%string,
           Done (model', step'))
      end
  end.

(** The handler (lines 78-86). *)
Definition load_default_file (model : model_obj) (model_dir filename : string)
  : list string * outcome (model_obj * Z) :=
  let announce :=
    ("Trying to load " ++ default_path model_dir filename ++ "...")%string in
  match torch_load (default_path model_dir filename) with
  | Fail e => ([announce], Fail e)
  | Done checkpoint =>
      match load_state_dict model checkpoint with
      | Fail e => ([announce], Fail e)
      | Done (model', step') =>
          ([announce;
            ("Loaded " ++ default_path model_dir filename ++ " from "
                       ++ str_int step' ++ " step checkpoint")%string],
           Done (model', step'))
      end
  end.

(** [restore_from_checkpoint] (lines 69-86): only [FileNotFoundError] is
    caught.  The result is the printed lines and the returned pair or the
    exception. *)
Definition restore_from_checkpoint (model : model_obj) (model_dir : string)
           (step : option Z) (filename : string)
  : list string * outcome (model_obj * Z) :=
  match try_step_file model model_dir step filename with
  | (_, Fail FileNotFoundError) => load_default_file model model_dir filename
  | finished => finished
  end.

End WithTorch.

Arguments Ckpt {state} ck_model ck_step.
Arguments ck_model {state} c.
Arguments ck_step {state} c.
Arguments Model {net} own module.
Arguments own {net} m.
Arguments module {net} m.
Arguments NoModule {net}.
Arguments IsModule {net} inner.
Arguments NotAModule {net}.

End Checkpoint.

(** ** Stand-in directories for concrete restores *)
Module CheckpointStub.
Import Checkpoint.

(** A directory that holds [weights.pt], saved at step 1000000, and nothing
    else; network weights are numbers and loading replaces them. *)
Definition only_default (path : string) : outcome (checkpoint Z) :=
  if String.eqb path "run/weights.pt"
  then Done (Ckpt (Some 42%Z) (Some 1000000%Z))
  else Fail FileNotFoundError.
Definition replace_weights (old new : Z) : outcome Z := Done new.

(** A directory that holds the file of step 500, saved without its
    ["step"] key, beside a sound [weights.pt]. *)
Definition broken_step_file (path : string) : outcome (checkpoint Z) :=
  if String.eqb path "run/weights-500.pt" then Done (Ckpt (Some 7%Z) None)
  else only_default path.

End CheckpointStub.

(** ** What [main] writes: file names and the real-time factor *)
Module Output.
Import Torch.

(** [s.split(sep)] for a one-character separator. *)
Fixpoint split (sep : ascii) (s : string) : list string :=
  match s with
  | EmptyString => [EmptyString]
  | String c rest =>
      if Ascii.eqb c sep then EmptyString :: split sep rest
      else match split sep rest with
           | piece :: pieces => String c piece :: pieces
           | [] => [String c EmptyString]
           end
  end.

(** [c in s]. *)
Fixpoint contains (c : ascii) (s : string) : bool :=
  match s with
  | EmptyString => false
  | String c' rest => Ascii.eqb c' c || contains c rest
  end.

(** Line 352: [features["filename"][0].split("/")[-1]]. *)
Definition sample_name (filenames : list string) : result string :=
  match filenames with
  | [] => Raise IndexError
  | first :: _ => Ok (last (split "/"%char first) EmptyString)
  end.

(** Python's [sum] over the sample counts and over the durations. *)
Definition total_samples (n_samples : list nat) : nat :=
  fold_left Nat.add n_samples 0%nat.
Definition total_duration (gen_dur : list R) : R := fold_left Rplus gen_dur 0.

(** Line 358: [sum(gen_dur) / sum(n_samples) * 22050]. *)
Definition rtf (gen_dur : list R) (n_samples : list nat) : result R :=
  if Nat.eqb (total_samples n_samples) 0 then Raise ZeroDivisionError
  else Ok (total_duration gen_dur / INR (total_samples n_samples) * 22050).

End Output.

(** ** The same lines in binary64

    The modules above compute over the reals.  This one repeats the schedule
    arithmetic and the sampling loop over binary64, as numpy computes them:
    every operation rounds, a product can underflow to 0, [0 / 0] is NaN and
    [x / 0] is an infinity.  [x ** 0.5] is the correctly rounded square root.
    Tensors hold their elements in a type that torch and numpy choose between
    them (binary32, or binary64 after promotion); [dtype] rounds to it. *)
Module Binary64.
Import Torch.
Import PrimFloat.
#[local] Set Warnings "-inexact-float".
Local Open Scope float_scope.

(** A Python [int] below 2^53 as a binary64 number. *)
Fixpoint of_nat (n : nat) : float :=
  match n with
  | O => 0
  | S k => of_nat k + 1
  end.

(** Rounding to the nearest integer, ties to even, for [|v| < 2^51]. *)
Definition round_int (v : float) : float := (v + 0x1.8p52) - 0x1.8p52.

(** The cast to [np.float32] (line 283), the result again held in binary64:
    24 significant bits, subnormals below [2^-126], overflow to infinity. *)
Definition to_binary32 (x : float) : float :=
  if is_nan x then x
  else if orb (PrimFloat.abs x =? infinity) (x =? 0) then x
  else if PrimFloat.abs x <? 0x1p-126 then round_int (x * 0x1p149) * 0x1p-149
  else
    let (m, e) := frshiftexp x in
    let r := ldshiftexp (round_int (m * 0x1p24)) (PrimInt63.sub e 24) in
    if 0x1.fffffep127 <? PrimFloat.abs r
    then (if x <? 0 then neg_infinity else infinity)
    else r.

(** [x ** 0.5]. *)
Definition pow_half (x : float) : float := PrimFloat.sqrt x.

(** [1 - arr] and [np.cumprod]. *)
Definition one_minus (arr : list float) : list float := map (fun b => 1 - b) arr.

Fixpoint cumprod_from (acc : float) (arr : list float) : list float :=
  match arr with
  | [] => []
  | x :: rest => let p := acc * x in p :: cumprod_from p rest
  end.

Definition cumprod (arr : list float) : list float :=
  match arr with
  | [] => []
  | x :: rest => x :: cumprod_from x rest
  end.

(** [np.linspace(start, stop, num)]: [arange(num) * step + start] with
    [step = (stop - start) / (num - 1)], the last sample set to [stop]. *)
Definition linspace (start stop : float) (num : nat) : list float :=
  match num with
  | O => []
  | S O => [0 * (stop - start) + start]
  | S div =>
      let delta := stop - start in
      let step := delta / of_nat div in
      map (fun i => if step =? 0
                    then of_nat i / of_nat div * delta + start
                    else of_nat i * step + start)
          (seq 0 div)
      ++ [stop]
  end.

Definition item (arr : list float) (i : nat) : float := nth i arr 0.

Definition alpha_of (beta : list float) : list float := one_minus beta.
Definition alpha_cum_of (beta : list float) : list float := cumprod (alpha_of beta).

(** A schedule with every beta in (0,1). *)
Definition valid (schedule : list float) : bool :=
  forallb (fun b => (0 <? b) && (b <? 1))%bool schedule.

(** Lines 274-283. *)
Definition in_bracket (talpha_cum : list float) (a : float) (t : nat) : bool :=
  ((item talpha_cum (t + 1) <=? a) && (a <=? item talpha_cum t))%bool.

Definition twiddle (talpha_cum : list float) (a : float) (t : nat) : float :=
  (pow_half (item talpha_cum t) - pow_half a)
  / (pow_half (item talpha_cum t) - pow_half (item talpha_cum (t + 1))).

Fixpoint scan (talpha_cum : list float) (a : float) (ts : list nat)
  : option float :=
  match ts with
  | [] => None
  | t :: ts' =>
      if in_bracket talpha_cum a t
      then Some (of_nat t + twiddle talpha_cum a t)
      else scan talpha_cum a ts'
  end.

Definition time_warp (n_training n_inference : nat)
           (talpha_cum alpha_cum : list float) : list float :=
  flat_map
    (fun s =>
       match scan talpha_cum (item alpha_cum s) (seq 0 (n_training - 1)) with
       | Some v => [v]
       | None => []
       end)
    (seq 0 n_inference).

(** Lines 267-283, the cast of line 283 included. *)
Definition build_T (training_noise_schedule inference_noise_schedule : list float)
  : list float :=
  map to_binary32
      (time_warp (length training_noise_schedule)
                 (length inference_noise_schedule)
                 (alpha_cum_of training_noise_schedule)
                 (alpha_cum_of inference_noise_schedule)).

(** Tensors, as in [Torch], with binary64 entries. *)
Definition tensor : Type := list (list (list float)).

Definition tmap (f : float -> float) (t : tensor) : tensor := map (map (map f)) t.
Definition tzip (f : float -> float -> float) (a b : tensor) : tensor :=
  zip_with (zip_with (zip_with f)) a b.
Definition tForall (P : float -> Prop) (t : tensor) : Prop :=
  Forall (Forall (Forall P)) t.
Definition shape_of (t : tensor) : shape :=
  (length t, length (hd [] t), length (hd [] (hd [] t))).

Definition has_shape (s : shape) (t : tensor) : Prop :=
  let '(batch, channels, samples) := s in
  length t = batch
  /\ Forall (fun example =>
               length example = channels
               /\ Forall (fun channel => length channel = samples) example) t.

(** [torch.clamp(x, lo, hi)]: NaN stays NaN. *)
Definition clamp1 (lo hi x : float) : float :=
  if x <? lo then lo else if hi <? x then hi else x.

(** Not below [-1] and not above [1]: what a clamped element satisfies, NaN
    included. *)
Definition within_unit (x : float) : Prop :=
  (x <? -1) = false /\ (1 <? x) = false.

(** In the closed interval [-1, 1], or NaN. *)
Definition unit_or_nan (x : float) : Prop :=
  is_nan x = true \/ ((-1 <=? x) = true /\ (x <=? 1) = true).

Inductive event : Type :=
| Randn (s : shape)
| Forward (t : float).

Section WithCollaborators.

Variable G : Type.
Variable randn : G -> shape -> tensor * G.
Variable model : tensor -> tensor -> float -> option tensor -> tensor.

(** Rounding to the element type of the tensors. *)
Variable dtype : float -> float.

Definition scale (c : float) (t : tensor) : tensor :=
  tmap (fun x => dtype (dtype c * x)) t.
Definition sub (a b : tensor) : tensor := tzip (fun x y => dtype (x - y)) a b.
Definition add (a b : tensor) : tensor := tzip (fun x y => dtype (x + y)) a b.
Definition mul (a b : tensor) : tensor := tzip (fun x y => dtype (x * y)) a b.
Definition clamp (t : tensor) (lo hi : float) : tensor := tmap (clamp1 lo hi) t.

(** The update of lines 148-160 and 322-331, [c1 * (audio - c2 * predicted)]
    with [c1 = 1 / alpha[n] ** 0.5] and
    [c2 = beta[n] / (1 - alpha_cum[n]) ** 0.5]. *)
Definition denoise (alpha_n beta_n alpha_cum_n : float)
           (predicted audio : tensor) : tensor :=
  scale (1 / pow_half alpha_n)
        (sub audio (scale (beta_n / pow_half (1 - alpha_cum_n)) predicted)).

Record world : Type := World { rng : G; trace : list event }.

Definition M (A : Type) : Type := world -> result (A * world).

Definition ret {A} (a : A) : M A := fun w => Ok (a, w).
Definition raise {A} (e : exn) : M A := fun _ => Raise e.
Definition bind {A B} (c : M A) (k : A -> M B) : M B :=
  fun w => match c w with
           | Ok (a, w') => k a w'
           | Raise e => Raise e
           end.

Notation "'let*' x ':=' c 'in' k" := (bind c (fun x => k))
  (at level 10, x name, c at level 100, k at level 200).

Definition torch_randn (s : shape) : M tensor :=
  fun w => let (z, g) := randn (rng w) s in
           Ok (z, World g (trace w ++ [Randn s])).
Definition randn_like (t : tensor) : M tensor := torch_randn (shape_of t).

Definition call_model (audio spectrogram : tensor) (t : float)
           (global_cond : option tensor) : M tensor :=
  fun w => Ok (model audio spectrogram t global_cond,
               World (rng w) (trace w ++ [Forward t])).

Definition getitem (arr : list float) (n : nat) : M float :=
  match nth_error arr n with
  | Some x => ret x
  | None => raise IndexError
  end.

(** Lines 135-145 and 310-320. *)
Definition initial_audio (audio_channels hop_samples : Z)
           (spectrogram target_std : tensor) : M tensor :=
  let batch := length spectrogram in
  let frames := length (hd [] (hd [] spectrogram)) in
  if (audio_channels =? 0)%Z then raise ZeroDivisionError
  else
    let samples := (hop_samples * Z.of_nat frames / audio_channels)%Z in
    if ((audio_channels <? 0) || (samples <? 0))%Z then raise RuntimeError
    else
      let* z := torch_randn (batch, Z.to_nat audio_channels, Z.to_nat samples) in
      ret (mul z target_std).

(** Lines 148-167 and 322-338. *)
Definition iteration (alpha alpha_cum beta T : list float)
           (spectrogram target_std : tensor) (global_cond : option tensor)
           (n : nat) (audio : tensor) : M tensor :=
  let* alpha_n := getitem alpha n in
  let c1 := 1 / pow_half alpha_n in
  let* beta_n := getitem beta n in
  let* alpha_cum_n := getitem alpha_cum n in
  let c2 := beta_n / pow_half (1 - alpha_cum_n) in
  let* T_n := getitem T n in
  let* predicted := call_model audio spectrogram T_n global_cond in
  let audio := scale c1 (sub audio (scale c2 predicted)) in
  let* audio :=
    if (0 <? n)%nat then
      let* z := randn_like audio in
      let noise := mul z target_std in
      let* alpha_cum_prev := getitem alpha_cum (n - 1) in
      let* alpha_cum_n := getitem alpha_cum n in
      let* beta_n := getitem beta n in
      let sigma :=
        pow_half ((1 - alpha_cum_prev) / (1 - alpha_cum_n) * beta_n) in
      ret (add audio (scale sigma noise))
    else ret audio in
  ret (clamp audio (-1) 1).

Definition range_down (len : nat) : list nat := rev (seq 0 len).

Fixpoint for_each (ns : list nat) (body : nat -> tensor -> M tensor)
         (audio : tensor) : M tensor :=
  match ns with
  | [] => ret audio
  | n :: rest => let* audio := body n audio in for_each rest body audio
  end.

(** Lines 147-167 and 321-338. *)
Definition reverse_diffusion (alpha alpha_cum beta T : list float)
           (spectrogram target_std : tensor) (global_cond : option tensor)
           (audio : tensor) : M tensor :=
  for_each (range_down (length alpha))
           (iteration alpha alpha_cum beta T spectrogram target_std global_cond)
           audio.

(** Lines 259-338 of [main] for one example, the inference schedule being
    the training schedule (line 259). *)
Definition main_sample (noise_schedule : list float)
           (audio_channels hop_samples : Z)
           (spectrogram target_std : tensor) (global_cond : option tensor)
  : M tensor :=
  let beta := noise_schedule in
  let* audio := initial_audio audio_channels hop_samples spectrogram target_std in
  reverse_diffusion (alpha_of beta) (alpha_cum_of beta) beta
                    (build_T noise_schedule beta)
                    spectrogram target_std global_cond audio.

End WithCollaborators.

Arguments World {G} rng trace.
Arguments rng {G} w.
Arguments trace {G} w.

(** The collaborators keep to the shapes they are asked for: a draw has the
    requested shape, the network's prediction has the shape of the audio. *)
Definition draws_requested_shape {G : Type} (randn : G -> shape -> tensor * G)
  : Prop :=
  forall g s, has_shape s (fst (randn g s)).
Definition predicts_audio_shape
           (model : tensor -> tensor -> float -> option tensor -> tensor) : Prop :=
  forall s audio spectrogram t global_cond,
    has_shape s audio -> has_shape s (model audio spectrogram t global_cond).

(** Stand-ins for concrete runs: a generator that fills its draw with one
    half, the zero denoiser of the specification. *)
Definition full (s : shape) (x : float) : tensor :=
  let '(b, c, l) := s in repeat (repeat (repeat x l) c) b.
Definition half_randn (g : nat) (s : shape) : tensor * nat := (full s 0.5, S g).
Definition zero_model (audio spectrogram : tensor) (t : float)
           (global_cond : option tensor) : tensor :=
  tmap (fun _ => 0) audio.

End Binary64.

(** ** Cumulative products *)
Module CumprodFacts.
Import Numpy Schedule.

Lemma cumprod_from_length acc arr : length (cumprod_from acc arr) = length arr.
Proof. revert acc; induction arr as [|x rest IH]; intros acc; simpl; auto. Qed.

Lemma cumprod_length arr : length (cumprod arr) = length arr.
Proof. destruct arr; simpl; auto using cumprod_from_length. Qed.

Lemma alpha_cum_of_length beta : length (alpha_cum_of beta) = length beta.
Proof.
  unfold alpha_cum_of, alpha_of, one_minus.
  now rewrite cumprod_length, length_map.
Qed.

(** Every entry produced after [acc] is positive and at most [acc]. *)
Lemma cumprod_from_bounds arr : forall acc,
  0 < acc -> Forall (fun a => 0 < a < 1) arr ->
  Forall (fun p => 0 < p < acc) (cumprod_from acc arr).
Proof.
  induction arr as [|x rest IH]; intros acc Hacc Hall; simpl; constructor.
  - inversion Hall; subst. nra.
  - inversion Hall as [|? ? Hx Hrest]; subst.
    assert (Hp : 0 < acc * x < acc) by nra.
    specialize (IH (acc * x) (proj1 Hp) Hrest).
    eapply Forall_impl; [|exact IH]. simpl. intros p Hpp. lra.
Qed.

(** The running product decreases at every step. *)
Lemma cumprod_from_decreasing arr : forall acc,
  0 < acc -> Forall (fun a => 0 < a < 1) arr ->
  StronglySorted Rgt (acc :: cumprod_from acc arr).
Proof.
  induction arr as [|x rest IH]; intros acc Hacc Hall; simpl.
  - repeat constructor.
  - inversion Hall as [|? ? Hx Hrest]; subst.
    assert (Hp : 0 < acc * x < acc) by nra.
    constructor.
    + apply IH; tauto.
    + constructor; [unfold Rgt; lra|].
      eapply Forall_impl; [|apply cumprod_from_bounds; [exact (proj1 Hp)|exact Hrest]].
      simpl. intros p Hpp. unfold Rgt. lra.
Qed.

Lemma alpha_of_valid beta :
  valid beta -> Forall (fun a => 0 < a < 1) (alpha_of beta).
Proof.
  unfold valid, alpha_of, one_minus. intros H.
  apply Forall_map. eapply Forall_impl; [|exact H]. simpl. intros; lra.
Qed.

Lemma alpha_cum_sorted beta :
  valid beta -> StronglySorted Rgt (alpha_cum_of beta).
Proof.
  intros Hv. apply alpha_of_valid in Hv. unfold alpha_cum_of.
  destruct (alpha_of beta) as [|a rest]; simpl; [constructor|].
  inversion Hv; subst. apply cumprod_from_decreasing; tauto.
Qed.

Lemma alpha_cum_pos beta :
  valid beta -> Forall (fun p => 0 < p < 1) (alpha_cum_of beta).
Proof.
  intros Hv. apply alpha_of_valid in Hv. unfold alpha_cum_of.
  destruct (alpha_of beta) as [|a rest]; simpl; [constructor|].
  inversion Hv as [|? ? Ha Hrest]; subst. constructor; [exact Ha|].
  eapply Forall_impl; [|apply cumprod_from_bounds; [exact (proj1 Ha)|exact Hrest]].
  simpl. intros; lra.
Qed.

(** In a strongly sorted list a later entry is related to an earlier one. *)
Lemma StronglySorted_nth {A} (R : A -> A -> Prop) (l : list A) :
  StronglySorted R l ->
  forall i j x y, (i < j)%nat ->
    nth_error l i = Some x -> nth_error l j = Some y -> R x y.
Proof.
  induction 1 as [|a l Hs IH Hall]; intros i j x y Hij Hi Hj.
  - destruct i; discriminate.
  - destruct j as [|j]; [lia|]. simpl in Hj.
    destruct i as [|i]; simpl in Hi.
    + injection Hi as <-. rewrite Forall_forall in Hall.
      apply Hall. eapply nth_error_In; eauto.
    + apply (IH i j x y); [lia | assumption | assumption].
Qed.

End CumprodFacts.

(** ** The bracket search *)
Module ScanFacts.
Import Numpy Schedule CumprodFacts.

Lemma Rleb_true x y : Rleb x y = true <-> x <= y.
Proof. unfold Rleb. destruct (Rle_dec x y); split; intros; try discriminate; tauto. Qed.

Lemma in_bracket_true tc a t :
  in_bracket tc a t = true <-> item tc (t + 1) <= a <= item tc t.
Proof. unfold in_bracket. rewrite andb_true_iff, !Rleb_true. tauto. Qed.

Lemma in_bracket_false tc a t :
  in_bracket tc a t = false <-> ~ (item tc (t + 1) <= a <= item tc t).
Proof. rewrite <- in_bracket_true. destruct (in_bracket tc a t); split; congruence. Qed.

(** What the inner loop returns: the first bracket of the scanned range. *)
Lemma scan_some tc a : forall n k v,
  scan tc a (seq k n) = Some v ->
  exists t, (k <= t < k + n)%nat /\ in_bracket tc a t = true
            /\ (forall t', (k <= t' < t)%nat -> in_bracket tc a t' = false)
            /\ v = INR t + twiddle tc a t.
Proof.
  induction n as [|n IH]; intros k v H; simpl in H; [discriminate|].
  destruct (in_bracket tc a k) eqn:Hb.
  - injection H as <-. exists k. repeat split; auto; lia.
  - destruct (IH _ _ H) as (t & Ht & Hin & Hfirst & Hv).
    exists t. repeat split; auto; try lia.
    intros t' Ht'. destruct (Nat.eq_dec t' k) as [->|]; [exact Hb|].
    apply Hfirst; lia.
Qed.

Lemma scan_first tc a : forall n k t,
  (k <= t < k + n)%nat -> in_bracket tc a t = true ->
  (forall t', (k <= t' < t)%nat -> in_bracket tc a t' = false) ->
  scan tc a (seq k n) = Some (INR t + twiddle tc a t).
Proof.
  induction n as [|n IH]; intros k t Ht Hin Hfirst; [lia|]. simpl.
  destruct (Nat.eq_dec t k) as [->|Hne].
  - now rewrite Hin.
  - rewrite (Hfirst k) by lia. apply IH; [lia|exact Hin|].
    intros; apply Hfirst; lia.
Qed.

Lemma scan_none tc a : forall n k,
  (forall t, (k <= t < k + n)%nat -> in_bracket tc a t = false) ->
  scan tc a (seq k n) = None.
Proof.
  induction n as [|n IH]; intros k H; simpl; [reflexivity|].
  rewrite (H k) by lia. apply IH. intros; apply H; lia.
Qed.

Lemma scan_found tc a : forall n k t,
  (k <= t < k + n)%nat -> in_bracket tc a t = true ->
  exists v, scan tc a (seq k n) = Some v.
Proof.
  induction n as [|n IH]; intros k t Ht Hin; [lia|]. simpl.
  destruct (in_bracket tc a k) eqn:Hb; [eauto|].
  apply (IH (S k) t); [|exact Hin].
  destruct (Nat.eq_dec t k) as [->|]; [congruence|lia].
Qed.

(** Between an entry that is at least [a] and a later one that is at most
    [a] some adjacent pair brackets [a]; no ordering of the array is needed. *)
Lemma bracket_exists tc a : forall n,
  (1 <= n)%nat -> a <= item tc 0 -> item tc n <= a ->
  exists t, (t < n)%nat /\ in_bracket tc a t = true.
Proof.
  induction n as [|n IH]; intros Hn Hhi Hlo; [lia|].
  destruct n as [|n].
  - exists 0%nat. split; [lia|]. apply in_bracket_true. simpl. tauto.
  - destruct (Rle_dec (item tc (S n)) a) as [Hle|Hgt].
    + destruct IH as (t & Ht & Hin); auto; [lia|]. exists t. split; [lia|exact Hin].
    + exists (S n). split; [lia|]. apply in_bracket_true.
      replace (S n + 1)%nat with (S (S n)) by lia. lra.
Qed.

Lemma item_nth_error (l : list R) i :
  (i < length l)%nat -> nth_error l i = Some (item l i).
Proof. intros. unfold item. now apply nth_error_nth'. Qed.

Lemma item_decreasing tc i j :
  StronglySorted Rgt tc -> (i < j < length tc)%nat -> item tc j < item tc i.
Proof.
  intros Hs Hij.
  apply (StronglySorted_nth Rgt tc Hs i j); try apply item_nth_error; lia.
Qed.

Lemma item_nonincreasing tc i j :
  StronglySorted Rgt tc -> (i <= j < length tc)%nat -> item tc j <= item tc i.
Proof.
  intros Hs Hij. destruct (Nat.eq_dec i j) as [->|]; [lra|].
  apply Rlt_le, item_decreasing; auto. lia.
Qed.

Lemma item_last (l : list R) : item l (length l - 1) = last l 0.
Proof.
  unfold item. induction l as [|x [|y l] IH]; try reflexivity.
  simpl length in *. replace (S (S (length l)) - 1)%nat with (S (length l)) by lia.
  replace (S (length l) - 1)%nat with (length l) in IH by lia.
  exact IH.
Qed.

Lemma in_range_items tc a :
  in_range tc a <-> (1 <= length tc)%nat /\ item tc (length tc - 1) <= a <= item tc 0.
Proof.
  unfold in_range. destruct tc as [|x tc].
  - simpl. split; [tauto|lia].
  - rewrite item_last. change (item (x :: tc) 0) with x.
    simpl length. split; [|tauto]. intros; split; [lia|tauto].
Qed.

(** With a decreasing [talpha_cum] every bracket lies inside the range. *)
Lemma bracket_in_range tc a t :
  StronglySorted Rgt tc -> (t + 1 < length tc)%nat ->
  in_bracket tc a t = true -> in_range tc a.
Proof.
  intros Hs Ht Hin. apply in_bracket_true in Hin. apply in_range_items.
  split; [lia|].
  pose proof (item_nonincreasing tc (t + 1) (length tc - 1) Hs ltac:(lia)).
  pose proof (item_nonincreasing tc 0 t Hs ltac:(lia)).
  lra.
Qed.

(** The inner loop finds a bracket exactly for the values in range, once the
    training schedule has two entries. *)
Lemma scan_in_range tc a :
  (2 <= length tc)%nat -> in_range tc a ->
  exists v, scan tc a (seq 0 (length tc - 1)) = Some v.
Proof.
  intros Hlen Hr. apply in_range_items in Hr. destruct Hr as [_ Hr].
  destruct (bracket_exists tc a (length tc - 1)) as (t & Ht & Hin); try tauto; [lia|].
  apply (scan_found tc a _ 0%nat t); [lia|exact Hin].
Qed.

Lemma scan_out_of_range tc a :
  StronglySorted Rgt tc -> ~ in_range tc a ->
  scan tc a (seq 0 (length tc - 1)) = None.
Proof.
  intros Hs Hout. apply scan_none. intros t Ht.
  destruct (in_bracket tc a t) eqn:Hin; [|reflexivity].
  exfalso. apply Hout. apply (bracket_in_range tc a t); auto. lia.
Qed.

End ScanFacts.

(** ** The interpolation inside a bracket *)
Module TwiddleFacts.

Section Bracket.
Variables hi lo : R.
Hypothesis Hlo : 0 <= lo.
Hypothesis Hlt : lo < hi.

Local Abbreviation frac a := ((sqrt hi - sqrt a) / (sqrt hi - sqrt lo)).

Lemma width_pos : 0 < sqrt hi - sqrt lo.
Proof. pose proof (sqrt_lt_1_alt lo hi (conj Hlo Hlt)). lra. Qed.

Lemma frac_times_width a : frac a * (sqrt hi - sqrt lo) = sqrt hi - sqrt a.
Proof. pose proof width_pos. field. lra. Qed.

Lemma frac_bounds a : lo <= a <= hi -> 0 <= frac a <= 1.
Proof.
  intros [Ha1 Ha2].
  pose proof width_pos as HD. pose proof (frac_times_width a) as He.
  pose proof (sqrt_le_1_alt lo a Ha1). pose proof (sqrt_le_1_alt a hi Ha2).
  split; nra.
Qed.

Lemma frac_lt_one a : lo < a -> frac a < 1.
Proof.
  intros Ha.
  pose proof width_pos as HD. pose proof (frac_times_width a) as He.
  pose proof (sqrt_lt_1_alt lo a (conj Hlo Ha)). nra.
Qed.

Lemma frac_pos a : lo <= a < hi -> 0 < frac a.
Proof.
  intros [Ha1 Ha2].
  pose proof width_pos as HD. pose proof (frac_times_width a) as He.
  assert (0 <= a) by lra.
  pose proof (sqrt_lt_1_alt a hi (conj H Ha2)). nra.
Qed.

Lemma frac_decreasing a a' : lo <= a' -> a' < a -> frac a < frac a'.
Proof.
  intros Ha' Hlt'.
  pose proof width_pos as HD.
  pose proof (frac_times_width a) as He. pose proof (frac_times_width a') as He'.
  assert (0 <= a') by lra.
  pose proof (sqrt_lt_1_alt a' a (conj H Hlt')). nra.
Qed.

Lemma frac_top : frac hi = 0.
Proof. replace (sqrt hi - sqrt hi) with 0 by ring. apply Rdiv_0_l. Qed.

Lemma frac_bottom : frac lo = 1.
Proof. apply Rdiv_diag. pose proof width_pos. lra. Qed.

End Bracket.

End TwiddleFacts.

(** ** Lists built by optional emission *)
Module EmitFacts.

Section Emit.
Context {A B : Type} (f : A -> option B).

Local Abbreviation emit :=
  (fun x => match f x with Some v => [v] | None => [] end).

Lemma emit_length_le l : (length (flat_map emit l) <= length l)%nat.
Proof.
  induction l as [|x l IH]; simpl; [lia|].
  rewrite length_app. destruct (f x); simpl; lia.
Qed.

Lemma emit_length_all l :
  (forall x, In x l -> exists v, f x = Some v) ->
  length (flat_map emit l) = length l.
Proof.
  induction l as [|x l IH]; intros H; simpl; [reflexivity|].
  rewrite length_app, IH by (intros; apply H; now right).
  destruct (H x (or_introl eq_refl)) as [v Hv]. now rewrite Hv.
Qed.

Lemma emit_length_missing l :
  (exists x, In x l /\ f x = None) ->
  (length (flat_map emit l) < length l)%nat.
Proof.
  induction l as [|x l IH]; intros (y & Hin & Hy); [destruct Hin|].
  simpl. rewrite length_app. destruct Hin as [->|Hin].
  - rewrite Hy. simpl. pose proof (emit_length_le l). lia.
  - assert (length (flat_map emit l) < length l)%nat by (apply IH; eauto).
    destruct (f x); simpl; lia.
Qed.

Lemma emit_all_map (g : A -> B) l :
  (forall x, In x l -> f x = Some (g x)) -> flat_map emit l = map g l.
Proof.
  induction l as [|x l IH]; intros H; simpl; [reflexivity|].
  rewrite IH by (intros; apply H; now right).
  now rewrite (H x (or_introl eq_refl)).
Qed.

Lemma emit_none l : (forall x, In x l -> f x = None) -> flat_map emit l = [].
Proof.
  induction l as [|x l IH]; intros H; simpl; [reflexivity|].
  rewrite IH by (intros; apply H; now right).
  now rewrite (H x (or_introl eq_refl)).
Qed.

Lemma emit_sorted (ltA : A -> A -> Prop) (ltB : B -> B -> Prop) l :
  StronglySorted ltA l ->
  (forall x x' v v', In x l -> In x' l -> ltA x x' ->
                     f x = Some v -> f x' = Some v' -> ltB v v') ->
  StronglySorted ltB (flat_map emit l).
Proof.
  induction 1 as [|x l Hs IH Hall]; intros Hmono; simpl; [constructor|].
  assert (Hrest : StronglySorted ltB (flat_map emit l)).
  { apply IH. intros; eapply Hmono; eauto; now right. }
  destruct (f x) as [v|] eqn:Hx; simpl; [|exact Hrest].
  constructor; [exact Hrest|].
  apply Forall_forall. intros v' Hv'.
  apply in_flat_map in Hv'. destruct Hv' as (x' & Hin' & Hv').
  cbv beta in Hv'. destruct (f x') as [w|] eqn:Hx'; [|destruct Hv'].
  destruct Hv' as [<-|[]].
  rewrite Forall_forall in Hall.
  apply (Hmono x x'); auto; [now left|now right].
Qed.

End Emit.

Lemma seq_sorted : forall n k, StronglySorted lt (seq k n).
Proof.
  induction n as [|n IH]; intros k; simpl; constructor; [apply IH|].
  apply Forall_forall. intros x Hx. apply in_seq in Hx. lia.
Qed.

End EmitFacts.

(** ** The time warp: which value each inference step receives *)
Module WarpFacts.
Import Numpy Schedule CumprodFacts ScanFacts TwiddleFacts EmitFacts.

Lemma item_Forall (P : R -> Prop) l i :
  Forall P l -> (i < length l)%nat -> P (item l i).
Proof. intros H Hi. unfold item. now apply Forall_nth. Qed.

(** The inner loop after unfolding [time_warp]. *)
Lemma time_warp_unfold nt ni tc ac :
  time_warp nt ni tc ac =
  flat_map (fun s => match scan tc (item ac s) (seq 0 (nt - 1)) with
                     | Some v => [v]
                     | None => []
                     end) (seq 0 ni).
Proof. reflexivity. Qed.

Section Decreasing.
Variable tc : list R.
Hypothesis Hsorted : StronglySorted Rgt tc.
Hypothesis Hnonneg : Forall (fun x => 0 <= x) tc.

Lemma bracket_ends t :
  (t + 1 < length tc)%nat -> 0 <= item tc (t + 1) /\ item tc (t + 1) < item tc t.
Proof.
  intros Ht. split.
  - apply (item_Forall (fun x => 0 <= x)); auto.
  - apply item_decreasing; auto. lia.
Qed.

(** A smaller cumulative alpha is warped to a later time. *)
Lemma scan_decreasing a a' v v' :
  a' < a ->
  scan tc a (seq 0 (length tc - 1)) = Some v ->
  scan tc a' (seq 0 (length tc - 1)) = Some v' ->
  v < v'.
Proof.
  intros Haa Hv Hv'.
  apply scan_some in Hv. destruct Hv as (t & Ht & Hin & _ & ->).
  apply scan_some in Hv'. destruct Hv' as (t' & Ht' & Hin' & _ & ->).
  apply in_bracket_true in Hin. apply in_bracket_true in Hin'.
  destruct (bracket_ends t ltac:(lia)) as [Hlo Hlt].
  destruct (bracket_ends t' ltac:(lia)) as [Hlo' Hlt'].
  pose proof (frac_bounds _ _ Hlo Hlt a Hin) as Hb.
  pose proof (frac_bounds _ _ Hlo' Hlt' a' Hin') as Hb'.
  unfold twiddle.
  destruct (lt_eq_lt_dec t t') as [[Hlt_t|Heq]|Hgt].
  - (* a later bracket *)
    destruct (Nat.eq_dec t' (t + 1)) as [->|Hfar].
    + (* the next bracket: the two values cannot both sit on the shared end *)
      rewrite plus_INR. simpl INR.
      destruct (Rle_lt_dec a (item tc (t + 1))) as [Hedge|Hin_a].
      * pose proof (frac_pos _ _ Hlo' Hlt' a' ltac:(lra)). lra.
      * pose proof (frac_lt_one _ _ Hlo Hlt a Hin_a). lra.
    + assert (Hstep : INR t + 2 <= INR t').
      { replace 2 with (INR 2) by (simpl; ring).
        rewrite <- plus_INR. apply le_INR. lia. }
      lra.
  - subst t'.
    pose proof (frac_decreasing _ _ Hlo Hlt a a' ltac:(lra) Haa). lra.
  - (* an earlier bracket cannot hold the smaller value *)
    exfalso.
    assert (item tc t <= item tc (t' + 1)).
    { apply item_nonincreasing; auto. lia. }
    lra.
Qed.

End Decreasing.

Section SameSchedule.
Variable schedule : list R.
Hypothesis Hvalid : valid schedule.

Local Abbreviation tc := (alpha_cum_of schedule).

Lemma tc_sorted : StronglySorted Rgt tc.
Proof. now apply alpha_cum_sorted. Qed.

Lemma tc_nonneg : Forall (fun x => 0 <= x) tc.
Proof.
  eapply Forall_impl; [|apply alpha_cum_pos; exact Hvalid]. simpl. intros; lra.
Qed.

(** Querying the schedule's own cumulative alpha [tc[s]] returns [s]. *)
Lemma scan_own_entry s :
  (2 <= length schedule)%nat -> (s < length schedule)%nat ->
  scan tc (item tc s) (seq 0 (length schedule - 1)) = Some (INR s).
Proof.
  intros Hlen Hs.
  pose proof (alpha_cum_of_length schedule) as Hl.
  destruct s as [|s].
  - rewrite (scan_first tc (item tc 0) _ 0%nat 0%nat); try lia.
    + destruct (bracket_ends tc tc_sorted tc_nonneg 0 ltac:(lia)) as [Hlo Hlt].
      unfold twiddle. rewrite frac_top. simpl. f_equal. ring.
    + apply in_bracket_true. split; [|lra].
      apply item_nonincreasing; [apply tc_sorted|lia].
  - rewrite (scan_first tc (item tc (S s)) _ 0%nat s); try lia.
    + destruct (bracket_ends tc tc_sorted tc_nonneg s ltac:(lia)) as [Hlo Hlt].
      unfold twiddle. replace (S s) with (s + 1)%nat by lia.
      rewrite (frac_bottom _ _ Hlo Hlt). rewrite plus_INR. reflexivity.
    + apply in_bracket_true. replace (s + 1)%nat with (S s) by lia.
      split; [lra|]. apply item_nonincreasing; [apply tc_sorted|lia].
    + intros t' Ht'. apply in_bracket_false. intros [Hc _].
      pose proof (item_decreasing tc (t' + 1) (S s) tc_sorted ltac:(lia)). lra.
Qed.

End SameSchedule.

(** [np.linspace] between two betas of (0,1) is a valid schedule. *)
Lemma linspace_valid start stop num :
  0 < start -> start <= stop -> stop < 1 -> valid (linspace start stop num).
Proof.
  intros H0 Hle H1. unfold valid, linspace.
  destruct num as [|[|div]]; [constructor|repeat constructor; lra|].
  apply Forall_map, Forall_forall. intros i Hi. apply in_seq in Hi.
  assert (Hd : 0 < INR (S div)) by (apply lt_0_INR; lia).
  assert (Hi0 : 0 <= INR i) by apply pos_INR.
  assert (Hi1 : INR i <= INR (S div)) by (apply le_INR; lia).
  set (d := INR (S div)) in *. set (x := INR i) in *.
  assert (Hq : x * ((stop - start) / d) = (x / d) * (stop - start)) by (field; lra).
  rewrite Hq.
  assert (Hf : 0 <= x / d <= 1).
  { assert (Hm : x / d * d = x) by (field; lra).
    pose proof (Rinv_0_lt_compat d Hd). unfold Rdiv in *. split; nra. }
  nra.
Qed.

End WarpFacts.

(** ** Properties of the schedule builder *)
Module ScheduleTheorems.
Import Numpy Schedule CumprodFacts ScanFacts EmitFacts WarpFacts.
#[local] Set Warnings "-inexact-float".

(** Range facts about the cumulative alphas of a literal schedule. *)
Ltac literal_range :=
  cbv [in_range alpha_cum_of alpha_of one_minus cumprod cumprod_from map
       last item nth]; lra.

(** C7, amended.  For a noise schedule whose betas all lie in (0,1), the
    cumulative product [alpha_cum = cumprod(1 - beta)], taken in exact
    arithmetic, has one entry per step, is monotonically non-increasing, and
    every entry lies in (0,1]. *)
Theorem alpha_cum_monotone_bounded (beta : list R) :
  valid beta ->
  length (alpha_cum_of beta) = length beta
  /\ (forall i j x y, (i <= j)%nat ->
        nth_error (alpha_cum_of beta) i = Some x ->
        nth_error (alpha_cum_of beta) j = Some y -> y <= x)
  /\ Forall (fun p => 0 < p <= 1) (alpha_cum_of beta).
Proof.
  intros Hv. split; [apply alpha_cum_of_length|]. split.
  - intros i j x y Hij Hi Hj.
    destruct (Nat.eq_dec i j) as [->|Hne].
    + rewrite Hi in Hj. injection Hj as ->. lra.
    + apply Rlt_le.
      apply (StronglySorted_nth Rgt _ (alpha_cum_sorted beta Hv) i j x y);
        [lia|exact Hi|exact Hj].
  - eapply Forall_impl; [|apply alpha_cum_pos; exact Hv]. simpl. intros; lra.
Qed.

Lemma alpha_cum_monotone_bounded_witness :
  valid [1 / 10; 1 / 2; 95 / 100]
  /\ (forall i j x y, (i <= j)%nat ->
        nth_error (alpha_cum_of [1 / 10; 1 / 2; 95 / 100]) i = Some x ->
        nth_error (alpha_cum_of [1 / 10; 1 / 2; 95 / 100]) j = Some y -> y <= x)
  /\ Forall (fun p => 0 < p <= 1) (alpha_cum_of [1 / 10; 1 / 2; 95 / 100]).
Proof.
  assert (Hv : valid [1 / 10; 1 / 2; 95 / 100]) by (repeat constructor; lra).
  split; [exact Hv|].
  exact (proj2 (alpha_cum_monotone_bounded _ Hv)).
Defined.

(** C7 as written fails in binary64: the running product of 200 alphas of
    [1 - 0.99] underflows, and from step 161 on [np.cumprod] holds [0.0],
    which is not in (0,1]. *)
Lemma alpha_cum_underflows :
  Binary64.valid (repeat 0.99%float 200) = true
  /\ nth 161 (Binary64.alpha_cum_of (repeat 0.99%float 200)) 1%float = 0%float
  /\ PrimFloat.ltb 0 (nth 161 (Binary64.alpha_cum_of (repeat 0.99 200)) 1)%float
     = false.
Proof. repeat split; vm_compute; reflexivity. Qed.

(** C2, amended.  With a training schedule of betas in (0,1): when it has at
    least two steps and every inference cumulative alpha lies in the range
    of the training cumulative alphas, [T] has one entry per inference step;
    when some inference cumulative alpha lies outside that range, its step
    is omitted and [T] is shorter than the inference schedule. *)
Theorem time_warp_length (training inference : list R) :
  valid training ->
  ((2 <= length training)%nat ->
   (forall s, (s < length inference)%nat ->
      in_range (alpha_cum_of training) (item (alpha_cum_of inference) s)) ->
   length (build_T training inference) = length inference)
  /\ ((exists s, (s < length inference)%nat /\
         ~ in_range (alpha_cum_of training) (item (alpha_cum_of inference) s)) ->
      (length (build_T training inference) < length inference)%nat).
Proof.
  intros Hv.
  pose proof (alpha_cum_of_length training) as Hl.
  unfold build_T. rewrite time_warp_unfold. split.
  - intros Hlen Hall.
    rewrite (emit_length_all
               (fun s => scan (alpha_cum_of training)
                              (item (alpha_cum_of inference) s)
                              (seq 0 (length training - 1)))).
    + apply length_seq.
    + intros s Hs. apply in_seq in Hs. rewrite <- Hl.
      apply scan_in_range; [lia|]. apply Hall. lia.
  - intros (s & Hs & Hout).
    pose proof (emit_length_missing
                  (fun s => scan (alpha_cum_of training)
                                 (item (alpha_cum_of inference) s)
                                 (seq 0 (length training - 1)))
                  (seq 0 (length inference))) as Hm.
    rewrite length_seq in Hm. apply Hm.
    exists s. split; [apply in_seq; lia|]. rewrite <- Hl.
    apply scan_out_of_range; [now apply alpha_cum_sorted|exact Hout].
Qed.

Lemma time_warp_length_witness :
  length (build_T [1 / 2; 1 / 2] [1 / 2; 1 / 2]) = 2%nat
  /\ (length (build_T [1 / 2; 1 / 2]%R [1 / 10]%R) < 1)%nat.
Proof.
  assert (Hv : valid [1 / 2; 1 / 2]) by (repeat constructor; lra).
  split.
  - apply (proj1 (time_warp_length [1 / 2; 1 / 2] [1 / 2; 1 / 2] Hv)).
    + simpl; lia.
    + intros s Hs. simpl in Hs.
      destruct s as [|[|s]]; [| |lia]; literal_range.
  - apply (proj2 (time_warp_length [1 / 2; 1 / 2] [1 / 10] Hv)).
    exists 0%nat. split; [simpl; lia|]. literal_range.
Defined.

(** C2 as written fails for a training schedule of a single step: its only
    cumulative alpha is in range, yet the bracket loop has nothing to scan. *)
Lemma time_warp_length_single_step :
  valid [1 / 2]
  /\ (forall s, (s < length [1 / 2]%R)%nat ->
        in_range (alpha_cum_of [1 / 2]) (item (alpha_cum_of [1 / 2]) s))
  /\ build_T [1 / 2] [1 / 2] = []
  /\ length (build_T [1 / 2] [1 / 2]) <> length [1 / 2].
Proof.
  split; [repeat constructor; lra|]. split; [|split].
  - intros s Hs. simpl in Hs. destruct s; [|lia]. literal_range.
  - reflexivity.
  - simpl. discriminate.
Qed.

(** C6, amended.  When the inference schedule is the training schedule, a
    schedule of at least two betas in (0,1), the arithmetic of the builder
    carried out exactly gives the identity time warp: [T] is
    [0, 1, ..., len - 1].  Computed in binary64, the cast to binary32
    included, [T] is exactly that for the 50 linearly spaced values in
    [1e-4, 0.05]. *)
Theorem identity_time_warp (schedule : list R) :
  valid schedule -> (2 <= length schedule)%nat ->
  build_T schedule schedule = map INR (seq 0 (length schedule))
  /\ Binary64.build_T (Binary64.linspace 1e-4%float 0.05%float 50)
                      (Binary64.linspace 1e-4%float 0.05%float 50)
     = map Binary64.of_nat (seq 0 50).
Proof.
  intros Hv Hlen. split; [|vm_compute; reflexivity].
  unfold build_T. rewrite time_warp_unfold.
  apply (emit_all_map
           (fun s => scan (alpha_cum_of schedule)
                          (item (alpha_cum_of schedule) s)
                          (seq 0 (length schedule - 1)))).
  intros s Hs. apply in_seq in Hs. apply scan_own_entry; auto. lia.
Qed.

Lemma identity_time_warp_witness :
  valid (linspace (1 / 10000) (5 / 100) 50)
  /\ build_T (linspace (1 / 10000) (5 / 100) 50)
             (linspace (1 / 10000) (5 / 100) 50)
     = map INR (seq 0 50).
Proof.
  assert (Hv : valid (linspace (1 / 10000) (5 / 100) 50))
    by (apply linspace_valid; lra).
  split; [exact Hv|].
  apply (proj1 (identity_time_warp _ Hv ltac:(simpl; lia))).
Defined.

(** C6 as written fails twice.  A schedule of one step is warped to the
    empty array.  And in binary64 the schedule [0.5, 1e-20] has the
    cumulative alphas [0.5, 0.5]: the bracket of line 277 has equal ends, the
    quotient of lines 278-280 is [0 / 0], and both entries of [T] are NaN. *)
Lemma identity_time_warp_fails :
  (valid [1 / 2] /\ build_T [1 / 2] [1 / 2] = [])
  /\ Binary64.valid [0.5; 1e-20]%float = true
  /\ Binary64.alpha_cum_of [0.5; 1e-20]%float = [0.5; 0.5]%float
  /\ Binary64.build_T [0.5; 1e-20]%float [0.5; 1e-20]%float
     = [PrimFloat.nan; PrimFloat.nan].
Proof.
  split; [split; [repeat constructor; lra|reflexivity]|].
  repeat split; vm_compute; reflexivity.
Qed.

(** C9, amended.  In exact arithmetic, for strictly decreasing training and
    inference cumulative-alpha sequences, the training one without a
    negative entry, the emitted time warp is strictly increasing. *)
Theorem time_warp_increasing (training inference : list R) :
  StronglySorted Rgt (alpha_cum_of training) ->
  StronglySorted Rgt (alpha_cum_of inference) ->
  Forall (fun x => 0 <= x) (alpha_cum_of training) ->
  StronglySorted Rlt (build_T training inference).
Proof.
  intros Ht Hi Hpos.
  pose proof (alpha_cum_of_length training) as Hlt.
  pose proof (alpha_cum_of_length inference) as Hli.
  unfold build_T. rewrite time_warp_unfold.
  apply (emit_sorted
           (fun s => scan (alpha_cum_of training)
                          (item (alpha_cum_of inference) s)
                          (seq 0 (length training - 1))) lt Rlt).
  - apply seq_sorted.
  - intros s s' v v' Hs Hs' Hss Hv Hv'.
    apply in_seq in Hs'. rewrite <- Hlt in Hv, Hv'.
    apply (scan_decreasing _ Ht Hpos _ _ _ _ (item_decreasing _ s s' Hi ltac:(lia)) Hv Hv').
Qed.

Lemma time_warp_increasing_witness :
  build_T [1 / 2; 1 / 2; 1 / 2] [1 / 2; 1 / 2; 1 / 4] <> []
  /\ StronglySorted Rlt (build_T [1 / 2; 1 / 2; 1 / 2] [1 / 2; 1 / 2; 1 / 4]).
Proof.
  split.
  - cbv [build_T time_warp seq flat_map length Nat.sub scan in_bracket
         alpha_cum_of alpha_of one_minus cumprod cumprod_from map item nth
         Nat.add Rleb].
    destruct (Rle_dec _ _) as [_|Hn]; [|exfalso; apply Hn; lra].
    destruct (Rle_dec _ _) as [_|Hn]; [|exfalso; apply Hn; lra].
    simpl. discriminate.
  - apply time_warp_increasing;
      cbv [alpha_cum_of alpha_of one_minus cumprod cumprod_from map];
      repeat constructor; unfold Rgt; lra.
Defined.

(** C9 as written fails in binary64.  The schedule [0.25, 6e-17] has the
    strictly decreasing cumulative alphas [0.75, 0.7499999999999999], whose
    square roots round to the same number: the quotient of lines 278-280 is
    [0 / 0] and both entries of [T] are NaN.  And below zero [x ** 0.5] is
    NaN: the betas [0.5, 3] have the strictly decreasing cumulative alphas
    [0.5, -1], and [T] is again [nan, nan]. *)
Lemma time_warp_not_increasing :
  (Binary64.alpha_cum_of [0.25; 6e-17]%float
   = [0.75; 0x1.7ffffffffffffp-1]%float
   /\ PrimFloat.ltb 0x1.7ffffffffffffp-1%float 0.75%float = true
   /\ Binary64.build_T [0.25; 6e-17]%float [0.25; 6e-17]%float
      = [PrimFloat.nan; PrimFloat.nan])
  /\ (Binary64.alpha_cum_of [0.5; 3]%float = [0.5; -1]%float
      /\ Binary64.build_T [0.5; 3]%float [0.5; 3]%float
         = [PrimFloat.nan; PrimFloat.nan])
  /\ PrimFloat.ltb PrimFloat.nan PrimFloat.nan = false.
Proof. repeat split; vm_compute; reflexivity. Qed.

End ScheduleTheorems.

(** ** Tensor arithmetic *)
Module TensorFacts.
Import Torch.

Lemma scale_mul_row c : forall l1 l2 : list R,
  map (Rmult c) (zip_with Rmult l1 l2) = zip_with Rmult (map (Rmult c) l1) l2.
Proof.
  unfold zip_with. induction l1 as [|x l1 IH]; intros [|y l2]; simpl; auto.
  rewrite IH. f_equal. ring.
Qed.

Lemma scale_mul_channels c : forall a b : list (list R),
  map (map (Rmult c)) (zip_with (zip_with Rmult) a b)
  = zip_with (zip_with Rmult) (map (map (Rmult c)) a) b.
Proof.
  induction a as [|x a IH]; intros [|y b]; try reflexivity.
  unfold zip_with in *. simpl. rewrite IH. f_equal. apply scale_mul_row.
Qed.

(** [sigma * (noise * target_std)] is [(sigma * noise) * target_std]. *)
Lemma scale_mul c : forall a b : tensor, scale c (mul a b) = mul (scale c a) b.
Proof.
  unfold scale, mul, tmap, tzip.
  induction a as [|x a IH]; intros [|y b]; try reflexivity.
  unfold zip_with in *. simpl. rewrite IH. f_equal. apply scale_mul_channels.
Qed.

Lemma clamp1_range lo hi x : lo <= hi -> lo <= clamp1 lo hi x <= hi.
Proof.
  intros Hle. unfold clamp1, Rmin, Rmax.
  destruct (Rle_dec x lo); destruct (Rle_dec _ hi); lra.
Qed.

Lemma clamp_range t lo hi :
  lo <= hi -> tForall (fun x => lo <= x <= hi) (clamp t lo hi).
Proof.
  intros Hle. unfold tForall, clamp, tmap.
  apply Forall_map, Forall_forall. intros example _.
  apply Forall_map, Forall_forall. intros channel _.
  apply Forall_map, Forall_forall. intros x _.
  now apply clamp1_range.
Qed.

End TensorFacts.

(** ** The sampling loop, step by step *)
Module SamplerFacts.
Import Numpy Torch Sampler TensorFacts.

Section WithCollaborators.
Variable G : Type.
Variable randn : G -> shape -> tensor * G.
Variable model : tensor -> tensor -> R -> option tensor -> tensor.

Lemma bind_ok {A B} (c : M G A) (k : A -> M G B) w r :
  bind G c k w = Ok r -> exists a w1, c w = Ok (a, w1) /\ k a w1 = Ok r.
Proof.
  unfold bind. destruct (c w) as [[a w1]|e]; [|discriminate]. eauto.
Qed.

Lemma getitem_some arr n x w :
  nth_error arr n = Some x -> getitem G arr n w = Ok (x, w).
Proof. unfold getitem. now intros ->. Qed.

Lemma getitem_none arr n w :
  nth_error arr n = None -> getitem G arr n w = Raise IndexError.
Proof. unfold getitem. now intros ->. Qed.

Lemma range_down_S k : range_down (S k) = k :: range_down k.
Proof. unfold range_down. rewrite seq_S, rev_app_distr. reflexivity. Qed.

Lemma for_each_app body : forall ns1 ns2 audio w,
  for_each G (ns1 ++ ns2) body audio w =
  match for_each G ns1 body audio w with
  | Ok (mid, w1) => for_each G ns2 body mid w1
  | Raise e => Raise e
  end.
Proof.
  induction ns1 as [|n ns1 IH]; intros ns2 audio w; simpl; [reflexivity|].
  unfold bind. destruct (body n audio w) as [[a w1]|e]; [apply IH|reflexivity].
Qed.

(** Whatever a step returns went through [torch.clamp]. *)
Lemma iteration_clamped alpha alpha_cum beta T spectrogram target_std gc n audio w out w' :
  iteration G randn model alpha alpha_cum beta T spectrogram target_std gc n audio w
  = Ok (out, w') ->
  exists pre, out = clamp pre (-1) 1.
Proof.
  unfold iteration. intros H.
  repeat (apply bind_ok in H; destruct H as (? & ? & _ & H)).
  unfold ret in H. injection H as <- _. eauto.
Qed.

(** A step whose indices are in range, at [n = 0]: no draw. *)
Lemma iteration_last alpha alpha_cum beta T spectrogram target_std gc audio w a b ac t :
  nth_error alpha 0 = Some a -> nth_error beta 0 = Some b ->
  nth_error alpha_cum 0 = Some ac -> nth_error T 0 = Some t ->
  iteration G randn model alpha alpha_cum beta T spectrogram target_std gc 0 audio w
  = Ok (clamp (Spec42.denoise a b ac (model audio spectrogram t gc) audio) (-1) 1,
        World (rng w) (trace w ++ [Forward t])).
Proof.
  intros Ha Hb Hac Ht. unfold iteration, bind.
  rewrite (getitem_some _ _ _ _ Ha), (getitem_some _ _ _ _ Hb),
          (getitem_some _ _ _ _ Hac), (getitem_some _ _ _ _ Ht).
  reflexivity.
Qed.

(** A step whose indices are in range, at [n > 0]: one draw, scaled by
    [target_std] and [sigma], is added before the clamp. *)
Lemma iteration_inner alpha alpha_cum beta T spectrogram target_std gc n audio w
      a b ac ac_prev t :
  (0 < n)%nat ->
  nth_error alpha n = Some a -> nth_error beta n = Some b ->
  nth_error alpha_cum n = Some ac -> nth_error T n = Some t ->
  nth_error alpha_cum (n - 1) = Some ac_prev ->
  let denoised := Spec42.denoise a b ac (model audio spectrogram t gc) audio in
  let draw := randn (rng w) (shape_of denoised) in
  iteration G randn model alpha alpha_cum beta T spectrogram target_std gc n audio w
  = Ok (clamp (Spec42.inject (Spec42.sigma ac_prev ac b) (fst draw) target_std
                             denoised) (-1) 1,
        World (snd draw) (trace w ++ [Forward t; Randn (shape_of denoised)])).
Proof.
  intros Hn Ha Hb Hac Ht Hprev denoised draw. unfold iteration, bind.
  rewrite (getitem_some _ _ _ _ Ha), (getitem_some _ _ _ _ Hb),
          (getitem_some _ _ _ _ Hac), (getitem_some _ _ _ _ Ht).
  cbn [call_model rng trace].
  destruct n as [|n]; [lia|]. cbn [Nat.ltb Nat.leb].
  unfold randn_like, torch_randn. cbn [rng trace].
  fold (Spec42.c1 a) (Spec42.c2 b ac).
  fold (Spec42.denoise a b ac (model audio spectrogram t gc) audio).
  fold denoised. fold draw. destruct draw as [z g']. cbn [fst snd].
  rewrite (getitem_some _ _ _ _ Hprev), (getitem_some _ _ _ _ Hac),
          (getitem_some _ _ _ _ Hb).
  unfold ret, Spec42.inject, Spec42.sigma. rewrite scale_mul, <- app_assoc.
  reflexivity.
Qed.

(** A step whose four indices are in range returns. *)
Lemma iteration_returns alpha alpha_cum beta T spectrogram target_std gc n audio w :
  (n < length alpha)%nat -> (n < length beta)%nat ->
  (n < length alpha_cum)%nat -> (n < length T)%nat ->
  exists out w',
    iteration G randn model alpha alpha_cum beta T spectrogram target_std gc n audio w
    = Ok (out, w').
Proof.
  intros Ha Hb Hac Ht.
  destruct (nth_error alpha n) as [a|] eqn:Ea; [|apply nth_error_None in Ea; lia].
  destruct (nth_error beta n) as [b|] eqn:Eb; [|apply nth_error_None in Eb; lia].
  destruct (nth_error alpha_cum n) as [ac|] eqn:Eac;
    [|apply nth_error_None in Eac; lia].
  destruct (nth_error T n) as [t|] eqn:Et; [|apply nth_error_None in Et; lia].
  destruct n as [|n].
  - rewrite (iteration_last _ _ _ _ _ _ _ _ _ _ _ _ _ Ea Eb Eac Et). eauto.
  - destruct (nth_error alpha_cum (S n - 1)) as [ac_prev|] eqn:Ep;
      [|apply nth_error_None in Ep; lia].
    rewrite (iteration_inner _ _ _ _ _ _ _ _ _ _ _ _ _ _ _ (Nat.lt_0_succ n)
                             Ea Eb Eac Et Ep).
    eauto.
Qed.

Lemma for_each_returns alpha alpha_cum beta T spectrogram target_std gc :
  forall steps audio w,
    Forall (fun n => (n < length alpha)%nat /\ (n < length beta)%nat
                     /\ (n < length alpha_cum)%nat /\ (n < length T)%nat) steps ->
    exists out w',
      for_each G steps
               (iteration G randn model alpha alpha_cum beta T
                          spectrogram target_std gc) audio w
      = Ok (out, w').
Proof.
  induction steps as [|n steps IH]; intros audio w Hall; simpl.
  - unfold ret. eauto.
  - inversion Hall as [|? ? (Ha & Hb & Hac & Ht) Hrest]; subst.
    destruct (iteration_returns alpha alpha_cum beta T spectrogram target_std gc
                                n audio w Ha Hb Hac Ht) as (mid & w1 & Hstep).
    unfold bind. rewrite Hstep. now apply IH.
Qed.

End WithCollaborators.

End SamplerFacts.

(** ** Properties of the driver *)
Module DriverTheorems.
Import Numpy Torch Schedule Sampler Driver.

(** The sampling loop of [main] always reads the training schedule. *)
Lemma main_beta_is_training_schedule a p p' s :
  main_schedules a p = Ok (p', s) -> beta s = noise_schedule p.
Proof.
  unfold main_schedules, override. intros H.
  destruct (fast a).
  - destruct (fast_iter a) as [t|].
    + destruct (noise_override p t) as [[sched warned]|e]; [|discriminate].
      injection H as <- <-. reflexivity.
    + injection H as <- <-. reflexivity.
  - injection H as <- <-. reflexivity.
Qed.

(** C1 on [--fast --fast_iter 6] over the 50-step training schedule: the
    override installs the six-step inference schedule, and the loop's [beta]
    is the 50-step training schedule all the same. *)
Theorem fast_flag_ignored :
  let p := Params (linspace (1 / 10000) (5 / 100) 50)
                  [1 / 10000; 1 / 1000; 1 / 100; 5 / 100; 2 / 10; 5 / 10]
                  2 256 None in
  exists p' s,
    main_schedules (Args None true (Some 6%Z)) p = Ok (p', s)
    /\ length (inference_noise_schedule p') = 6%nat
    /\ beta s = noise_schedule p
    /\ length (beta s) = 50%nat
    /\ beta s <> inference_noise_schedule p'.
Proof.
  intros p. eexists. eexists. split; [reflexivity|].
  repeat split. intros H. apply (f_equal (@length R)) in H. discriminate H.
Qed.

(** C10.  When the hyperparameter object has no
    [enable_remove_cutoff_alias] attribute, post-processing raises nothing and
    hands the two bands, unfiltered, to the inverse wavelet transform, as it
    does when the attribute is false. *)
Theorem missing_alias_flag_passthrough
        (highpass_biquad lowpass_biquad : tensor -> Z -> R -> tensor)
        (idwt : tensor * list tensor -> tensor) (p : params) (audio : tensor) :
  enable_remove_cutoff_alias p = None ->
  post_process highpass_biquad lowpass_biquad idwt p audio
  = Ok (squeeze1 (idwt (channel_slice 0 1 audio, [channel_slice 1 2 audio])))
  /\ post_process highpass_biquad lowpass_biquad idwt p audio
     = post_process highpass_biquad lowpass_biquad idwt
                    (Params (noise_schedule p) (inference_noise_schedule p)
                            (audio_channels p) (hop_samples p) (Some false))
                    audio.
Proof.
  intros Hmissing.
  unfold post_process, alias_removal_enabled,
    hasattr_enable_remove_cutoff_alias, getattr_enable_remove_cutoff_alias.
  rewrite Hmissing. split; reflexivity.
Qed.

Lemma missing_alias_flag_passthrough_witness :
  post_process Stub.pass_biquad Stub.pass_biquad Stub.sum_idwt
               (Params [1 / 2] [1 / 2] 2 256 None) [[[1 / 2]; [1 / 4]]]
  = Ok (Rank2 [[1 / 2 + 1 / 4]]).
Proof.
  exact (proj1 (missing_alias_flag_passthrough
                  Stub.pass_biquad Stub.pass_biquad Stub.sum_idwt
                  (Params [1 / 2] [1 / 2] 2 256 None) [[[1 / 2]; [1 / 4]]]
                  eq_refl)).
Defined.

End DriverTheorems.

(** ** More on the schedule arrays *)
Module ScheduleExtras.
Import Numpy Schedule CumprodFacts ScanFacts TwiddleFacts EmitFacts WarpFacts.

(** An emitted value is a bracket index plus a fraction of one bracket. *)
Lemma scan_value_bounds tc a n v :
  StronglySorted Rgt tc -> Forall (fun x => 0 <= x) tc ->
  (n < length tc)%nat ->
  scan tc a (seq 0 n) = Some v -> 0 <= v <= INR n.
Proof.
  intros Hs Hpos Hn Hv.
  apply scan_some in Hv. destruct Hv as (t & Ht & Hin & _ & ->).
  apply in_bracket_true in Hin.
  destruct (bracket_ends tc Hs Hpos t ltac:(lia)) as [Hlo Hlt].
  pose proof (frac_bounds _ _ Hlo Hlt a Hin) as Hb. unfold twiddle.
  pose proof (pos_INR t).
  assert (INR t + 1 <= INR n) by (rewrite <- S_INR; apply le_INR; lia).
  lra.
Qed.

(** In exact arithmetic the warped times stay inside the index range of the
    training schedule: every entry of [T] lies between 0 and
    [len(training) - 1]. *)
Theorem time_warp_within_training_steps (training inference : list R) :
  valid training ->
  Forall (fun v => 0 <= v <= INR (length training - 1))
         (build_T training inference).
Proof.
  intros Hv. unfold build_T. rewrite time_warp_unfold.
  apply Forall_forall. intros v Hin.
  apply in_flat_map in Hin. destruct Hin as (s & _ & Hin).
  destruct (scan _ _ _) as [v'|] eqn:Hscan; [|destruct Hin].
  destruct Hin as [<-|[]].
  destruct (le_lt_dec (length training) 0) as [Hz|Hnz].
  - replace (length training - 1)%nat with 0%nat in Hscan by lia. discriminate.
  - apply (scan_value_bounds (alpha_cum_of training)
             (item (alpha_cum_of inference) s) (length training - 1) v'
             (alpha_cum_sorted _ Hv)); [| |exact Hscan].
    + eapply Forall_impl; [|apply alpha_cum_pos; exact Hv]. simpl. intros; lra.
    + rewrite alpha_cum_of_length. lia.
Qed.

Lemma time_warp_within_training_steps_witness :
  Forall (fun v => 0 <= v <= INR (3 - 1))
         (build_T [1 / 2; 1 / 2; 1 / 2] [1 / 10; 3 / 4]).
Proof.
  apply (time_warp_within_training_steps [1 / 2; 1 / 2; 1 / 2] [1 / 10; 3 / 4]).
  repeat constructor; lra.
Defined.

(** [T] never has more entries than the inference schedule, and it is empty
    whenever the training schedule has fewer than two steps. *)
Theorem time_warp_never_longer (training inference : list R) :
  (length (build_T training inference) <= length inference)%nat
  /\ ((length training <= 1)%nat -> build_T training inference = []).
Proof.
  unfold build_T. rewrite time_warp_unfold. split.
  - pose proof (emit_length_le
                  (fun s => scan (alpha_cum_of training)
                                 (item (alpha_cum_of inference) s)
                                 (seq 0 (length training - 1)))
                  (seq 0 (length inference))) as Hle.
    now rewrite length_seq in Hle.
  - intros Hshort.
    apply (emit_none
             (fun s => scan (alpha_cum_of training)
                            (item (alpha_cum_of inference) s)
                            (seq 0 (length training - 1)))).
    intros s _. assert (E : (length training - 1 = 0)%nat) by lia.
    cbv beta. rewrite E. reflexivity.
Qed.

(** For a schedule of betas in (0,1) nothing the sampler computes at step
    [n] is undefined: [alpha[n]] and [1 - alpha_cum[n]] are positive, so
    [c1 > 1] and [c2 > 0]; and for [n > 0] the number under the square root
    of [sigma] lies strictly between 0 and [beta[n]]. *)
Theorem sampler_coefficients_defined (beta : list R) (n : nat) (b : R) :
  valid beta -> nth_error beta n = Some b ->
  exists a ac,
    nth_error (alpha_of beta) n = Some a
    /\ nth_error (alpha_cum_of beta) n = Some ac
    /\ 0 < a < 1 /\ 0 < 1 - ac < 1
    /\ 1 < Spec42.c1 a /\ 0 < Spec42.c2 b ac
    /\ (forall ac_prev, (0 < n)%nat ->
          nth_error (alpha_cum_of beta) (n - 1) = Some ac_prev ->
          0 < (1 - ac_prev) / (1 - ac) * b < b).
Proof.
  intros Hv Hb.
  assert (Hn : (n < length beta)%nat) by (apply nth_error_Some; congruence).
  assert (Hb01 : 0 < b < 1).
  { unfold valid in Hv. rewrite Forall_forall in Hv.
    apply Hv. eapply nth_error_In; eauto. }
  exists (1 - b), (item (alpha_cum_of beta) n).
  assert (Hac : nth_error (alpha_cum_of beta) n = Some (item (alpha_cum_of beta) n)).
  { apply item_nth_error. rewrite alpha_cum_of_length. exact Hn. }
  assert (Hac01 : 0 < item (alpha_cum_of beta) n < 1).
  { apply (item_Forall (fun p => 0 < p < 1)); [now apply alpha_cum_pos|].
    rewrite alpha_cum_of_length. exact Hn. }
  set (ac := item (alpha_cum_of beta) n) in *.
  split; [|split; [exact Hac|]].
  { unfold alpha_of, one_minus. rewrite nth_error_map, Hb. reflexivity. }
  split; [lra|]. split; [lra|].
  assert (Hs1 : 0 < sqrt (1 - b) < 1).
  { split; [apply sqrt_lt_R0; lra|].
    rewrite <- sqrt_1 at 2. apply sqrt_lt_1_alt. lra. }
  assert (Hs2 : 0 < sqrt (1 - ac)) by (apply sqrt_lt_R0; lra).
  split; [|split].
  - unfold Spec42.c1.
    assert (Hm : 1 / sqrt (1 - b) * sqrt (1 - b) = 1) by (field; lra).
    pose proof (Rinv_0_lt_compat _ (proj1 Hs1)). unfold Rdiv in *. nra.
  - unfold Spec42.c2. apply Rdiv_lt_0_compat; lra.
  - intros ac_prev Hpos Hprev.
    assert (Hlt : ac < ac_prev).
    { apply (StronglySorted_nth Rgt _ (alpha_cum_sorted beta Hv) (n - 1) n);
        [lia|exact Hprev|exact Hac]. }
    assert (Hprev01 : 0 < ac_prev < 1).
    { pose proof (alpha_cum_pos beta Hv) as Hall. rewrite Forall_forall in Hall.
      apply Hall. eapply nth_error_In; eauto. }
    assert (Hq : 0 < (1 - ac_prev) / (1 - ac) < 1).
    { assert (Hm : (1 - ac_prev) / (1 - ac) * (1 - ac) = 1 - ac_prev)
        by (field; lra).
      assert (Hinv : 0 < / (1 - ac)) by (apply Rinv_0_lt_compat; lra).
      unfold Rdiv in *. split; nra. }
    split; nra.
Qed.

Lemma sampler_coefficients_defined_witness :
  exists a ac,
    nth_error (alpha_of [1 / 10; 1 / 2]) 1 = Some a
    /\ nth_error (alpha_cum_of [1 / 10; 1 / 2]) 1 = Some ac
    /\ 0 < a < 1 /\ 0 < 1 - ac < 1
    /\ 1 < Spec42.c1 a /\ 0 < Spec42.c2 (1 / 2) ac
    /\ (forall ac_prev, (0 < 1)%nat ->
          nth_error (alpha_cum_of [1 / 10; 1 / 2]) (1 - 1) = Some ac_prev ->
          0 < (1 - ac_prev) / (1 - ac) * (1 / 2) < 1 / 2).
Proof.
  apply (sampler_coefficients_defined [1 / 10; 1 / 2] 1 (1 / 2)).
  - repeat constructor; lra.
  - reflexivity.
Defined.

End ScheduleExtras.

(** ** Whole runs of the sampling loop *)
Module RunFacts.
Import Numpy Torch Schedule Sampler Driver Trace.
Import CumprodFacts ScanFacts EmitFacts WarpFacts TensorFacts SamplerFacts.

Lemma forward_times_app tr1 tr2 :
  forward_times (tr1 ++ tr2) = forward_times tr1 ++ forward_times tr2.
Proof. unfold forward_times. apply flat_map_app. Qed.

Lemma draws_app tr1 tr2 : draws (tr1 ++ tr2) = (draws tr1 + draws tr2)%nat.
Proof. unfold draws. now rewrite filter_app, length_app. Qed.

Lemma firstn_snoc {A} : forall (l : list A) k x,
  nth_error l k = Some x -> firstn (S k) l = firstn k l ++ [x].
Proof.
  induction l as [|y l IH]; intros [|k] x H; try discriminate.
  - injection H as ->. reflexivity.
  - simpl in H. simpl. f_equal. now apply IH.
Qed.

(** The inference schedule that is its own training schedule is warped to
    [0, 1, ..., len - 1]. *)
Lemma build_T_same_schedule schedule :
  valid schedule -> (2 <= length schedule)%nat ->
  build_T schedule schedule = map INR (seq 0 (length schedule)).
Proof.
  intros Hv Hlen. unfold build_T. rewrite time_warp_unfold.
  apply (emit_all_map
           (fun s => scan (alpha_cum_of schedule)
                          (item (alpha_cum_of schedule) s)
                          (seq 0 (length schedule - 1)))).
  intros s Hs. apply in_seq in Hs. apply scan_own_entry; auto. lia.
Qed.

(** The override touches one field only. *)
Lemma override_keeps a p p' k warned :
  override a p = Ok (p', k, warned) ->
  noise_schedule p' = noise_schedule p
  /\ audio_channels p' = audio_channels p
  /\ hop_samples p' = hop_samples p
  /\ enable_remove_cutoff_alias p' = enable_remove_cutoff_alias p.
Proof.
  unfold override. intros H.
  destruct (fast a); [destruct (fast_iter a) as [t|]|].
  - destruct (noise_override p t) as [[sched w]|e]; [|discriminate].
    injection H as <- _ _. repeat split.
  - injection H as <- _ _. repeat split.
  - injection H as <- _ _. repeat split.
Qed.

Section WithCollaborators.
Variable G : Type.
Variable randn : G -> shape -> tensor * G.
Variable model : tensor -> tensor -> R -> option tensor -> tensor.

(** The effect of one in-range step on the trace. *)
Lemma iteration_trace alpha alpha_cum beta T spectrogram target_std gc n audio w t :
  (n < length alpha)%nat -> (n < length beta)%nat ->
  (n < length alpha_cum)%nat -> nth_error T n = Some t ->
  exists pre w',
    iteration G randn model alpha alpha_cum beta T spectrogram target_std gc n audio w
    = Ok (clamp pre (-1) 1, w')
    /\ forward_times (trace w') = forward_times (trace w) ++ [t]
    /\ draws (trace w') = (draws (trace w) + if (0 <? n)%nat then 1 else 0)%nat.
Proof.
  intros Ha Hb Hac Ht.
  destruct (nth_error alpha n) as [a|] eqn:Ea; [|apply nth_error_None in Ea; lia].
  destruct (nth_error beta n) as [b|] eqn:Eb; [|apply nth_error_None in Eb; lia].
  destruct (nth_error alpha_cum n) as [ac|] eqn:Eac;
    [|apply nth_error_None in Eac; lia].
  destruct n as [|n].
  - rewrite (iteration_last G randn model _ _ _ _ _ _ _ _ _ _ _ _ _ Ea Eb Eac Ht).
    eexists. eexists. split; [reflexivity|]. cbn [trace Nat.ltb Nat.leb].
    rewrite forward_times_app, draws_app. split; reflexivity.
  - destruct (nth_error alpha_cum (S n - 1)) as [ac_prev|] eqn:Ep;
      [|apply nth_error_None in Ep; lia].
    rewrite (iteration_inner G randn model _ _ _ _ _ _ _ _ _ _ _ _ _ _ _
                             (Nat.lt_0_succ n) Ea Eb Eac Ht Ep).
    eexists. eexists. split; [reflexivity|]. cbn [trace].
    rewrite forward_times_app, draws_app. split; reflexivity.
Qed.

(** The last [k] steps of the loop: they return, call the network at
    [T[k-1], ..., T[0]] and draw [k - 1] times. *)
Lemma countdown_accounting alpha alpha_cum beta T spectrogram target_std gc :
  forall k audio w,
    (k <= length alpha)%nat -> (k <= length beta)%nat ->
    (k <= length alpha_cum)%nat -> (k <= length T)%nat ->
    exists out w',
      for_each G (range_down k)
               (iteration G randn model alpha alpha_cum beta T
                          spectrogram target_std gc) audio w
      = Ok (out, w')
      /\ forward_times (trace w') = forward_times (trace w) ++ rev (firstn k T)
      /\ draws (trace w') = (draws (trace w) + (k - 1))%nat
      /\ ((0 < k)%nat -> tForall Spec42.unit_range out).
Proof.
  induction k as [|k IH]; intros audio w Ha Hb Hac Ht.
  - exists audio, w. cbn. rewrite app_nil_r. repeat split; try lia.
  - destruct (nth_error T k) as [t|] eqn:Et; [|apply nth_error_None in Et; lia].
    destruct (iteration_trace alpha alpha_cum beta T spectrogram target_std gc
                              k audio w t) as (pre & w1 & Hstep & Hf & Hd);
      try lia; auto.
    destruct (IH (clamp pre (-1) 1) w1) as (out & w' & Hrun & Hf' & Hd' & Hc);
      try lia.
    exists out, w'. rewrite range_down_S. cbn [for_each]. unfold bind.
    rewrite Hstep. split; [exact Hrun|]. split; [|split].
    + rewrite Hf', Hf, (firstn_snoc _ _ _ Et), rev_app_distr, <- app_assoc.
      reflexivity.
    + rewrite Hd', Hd. destruct k; cbn; lia.
    + intros _. destruct k as [|k].
      * cbn in Hrun. unfold ret in Hrun. injection Hrun as <- _.
        apply clamp_range. lra.
      * apply Hc. lia.
Qed.

(** An array shorter than [alpha] stops the loop at its first step. *)
Lemma short_array_raises alpha alpha_cum beta T spectrogram target_std gc audio w :
  (length beta < length alpha)%nat \/ (length alpha_cum < length alpha)%nat
  \/ (length T < length alpha)%nat ->
  reverse_diffusion G randn model alpha alpha_cum beta T
                    spectrogram target_std gc audio w
  = Raise IndexError.
Proof.
  intros Hshort. unfold reverse_diffusion.
  destruct (length alpha) as [|k] eqn:Hlen; [lia|].
  rewrite range_down_S. cbn [for_each]. unfold bind, iteration, bind, getitem.
  destruct (nth_error alpha k) as [a|] eqn:Ea;
    [|apply nth_error_None in Ea; lia]. cbn [ret].
  destruct (nth_error beta k) as [b|] eqn:Eb; [|reflexivity]. cbn [ret].
  destruct (nth_error alpha_cum k) as [ac|] eqn:Eac; [|reflexivity]. cbn [ret].
  destruct (nth_error T k) as [t|] eqn:Et; [|reflexivity].
  exfalso.
  assert (k < length beta)%nat by (apply nth_error_Some; congruence).
  assert (k < length alpha_cum)%nat by (apply nth_error_Some; congruence).
  assert (k < length T)%nat by (apply nth_error_Some; congruence).
  lia.
Qed.

(** When the initial noise is drawn, and what the draw leaves behind. *)
Lemma initial_audio_returns channels hop spectrogram target_std w :
  (0 < channels)%Z ->
  (0 <= hop * Z.of_nat (length (hd [] (hd [] spectrogram))) / channels)%Z ->
  exists audio w',
    initial_audio G randn channels hop spectrogram target_std w = Ok (audio, w')
    /\ forward_times (trace w') = forward_times (trace w)
    /\ draws (trace w') = S (draws (trace w)).
Proof.
  intros Hc Hs. unfold initial_audio.
  destruct (Z.eqb_spec channels 0); [lia|].
  destruct (Z.ltb_spec channels 0); [lia|].
  destruct (Z.ltb_spec (hop * Z.of_nat (length (hd [] (hd [] spectrogram)))
                        / channels) 0); [lia|].
  cbn [orb]. unfold bind, torch_randn.
  destruct (randn (rng w) _) as [z g]. eexists. eexists.
  split; [reflexivity|]. cbn [trace].
  rewrite forward_times_app, draws_app. cbn. rewrite app_nil_r.
  split; [reflexivity|lia].
Qed.

End WithCollaborators.

End RunFacts.

(** ** Shapes are kept *)
Module ShapeFacts.
Import Numpy Torch Sampler Shapes SamplerFacts.

Lemma zip_with_length {A B C} (f : A -> B -> C) l1 l2 n :
  length l1 = n -> length l2 = n -> length (zip_with f l1 l2) = n.
Proof.
  intros H1 H2. unfold zip_with. rewrite length_map, length_combine. lia.
Qed.

Lemma zip_with_Forall {A B C} (f : A -> B -> C) (P : A -> Prop) (Q : B -> Prop)
      (S : C -> Prop) :
  (forall x y, P x -> Q y -> S (f x y)) ->
  forall l1 l2, Forall P l1 -> Forall Q l2 -> Forall S (zip_with f l1 l2).
Proof.
  intros Hf. unfold zip_with.
  induction l1 as [|x l1 IH]; intros [|y l2] H1 H2; simpl; try constructor.
  - inversion H1; inversion H2; subst. now apply Hf.
  - inversion H1; inversion H2; subst. now apply IH.
Qed.

Lemma has_shape_tzip f s a b :
  has_shape s a -> has_shape s b -> has_shape s (tzip f a b).
Proof.
  destruct s as [[batch channels] samples]. intros [Ha1 Ha2] [Hb1 Hb2].
  split; [now apply zip_with_length|].
  eapply zip_with_Forall; [|exact Ha2|exact Hb2].
  intros x y [Hx1 Hx2] [Hy1 Hy2]. split; [now apply zip_with_length|].
  eapply zip_with_Forall; [|exact Hx2|exact Hy2].
  intros c d Hc Hd. cbv beta in *. now apply zip_with_length.
Qed.

Lemma has_shape_tmap f s t : has_shape s t -> has_shape s (tmap f t).
Proof.
  destruct s as [[batch channels] samples]. intros [H1 H2]. unfold tmap.
  split; [now rewrite length_map|].
  apply Forall_map. eapply Forall_impl; [|exact H2].
  intros example [He1 He2]. split; [now rewrite length_map|].
  apply Forall_map. eapply Forall_impl; [|exact He2].
  intros channel Hc. cbv beta in *. now rewrite length_map.
Qed.

(** A tensor drawn with the shape read off another has that one's shape. *)
Lemma has_shape_like s t z :
  has_shape s t -> has_shape (shape_of t) z -> has_shape s z.
Proof.
  destruct s as [[batch channels] samples]. unfold shape_of.
  intros [Ht1 Ht2] [Hz1 Hz2]. split; [congruence|].
  destruct t as [|example t]; [destruct z; [constructor|discriminate]|].
  inversion Ht2 as [|? ? [He1 He2] _]; subst. cbn [hd] in Hz2.
  eapply Forall_impl; [|exact Hz2].
  intros ex [Hx1 Hx2]. split; [exact Hx1|].
  destruct example as [|channel example];
    [destruct ex; [constructor|discriminate]|].
  inversion He2; subst. exact Hx2.
Qed.

Section WithCollaborators.
Variable G : Type.
Variable randn : G -> shape -> tensor * G.
Variable model : tensor -> tensor -> R -> option tensor -> tensor.
Hypothesis randn_shape : draws_requested_shape randn.
Hypothesis model_shape : predicts_audio_shape model.

Lemma denoise_shape s a b ac spectrogram t gc audio :
  has_shape s audio ->
  has_shape s (Spec42.denoise a b ac (model audio spectrogram t gc) audio).
Proof.
  intros Hs. unfold Spec42.denoise, scale, sub.
  apply has_shape_tmap, has_shape_tzip; [exact Hs|].
  apply has_shape_tmap. now apply model_shape.
Qed.

(** A step that returns keeps the shape shared by the audio and
    [target_std]. *)
Lemma iteration_shape alpha alpha_cum beta T spectrogram target_std gc s
      n audio w out w' :
  has_shape s audio -> has_shape s target_std ->
  iteration G randn model alpha alpha_cum beta T spectrogram target_std gc n audio w
  = Ok (out, w') ->
  has_shape s out.
Proof.
  intros Hs Hstd Hrun.
  destruct (nth_error alpha n) as [a|] eqn:Ea;
    [|unfold iteration, bind in Hrun;
      rewrite (getitem_none G _ _ _ Ea) in Hrun; discriminate].
  destruct (nth_error beta n) as [b|] eqn:Eb;
    [|unfold iteration, bind in Hrun;
      rewrite (getitem_some G _ _ _ _ Ea), (getitem_none G _ _ _ Eb) in Hrun;
      discriminate].
  destruct (nth_error alpha_cum n) as [ac|] eqn:Eac;
    [|unfold iteration, bind in Hrun;
      rewrite (getitem_some G _ _ _ _ Ea), (getitem_some G _ _ _ _ Eb),
              (getitem_none G _ _ _ Eac) in Hrun; discriminate].
  destruct (nth_error T n) as [t|] eqn:Et;
    [|unfold iteration, bind in Hrun;
      rewrite (getitem_some G _ _ _ _ Ea), (getitem_some G _ _ _ _ Eb),
              (getitem_some G _ _ _ _ Eac), (getitem_none G _ _ _ Et) in Hrun;
      discriminate].
  pose proof (denoise_shape s a b ac spectrogram t gc audio Hs) as Hden.
  destruct n as [|n].
  - rewrite (iteration_last G randn model _ _ _ _ _ _ _ _ _ _ _ _ _ Ea Eb Eac Et)
      in Hrun.
    injection Hrun as <- _. now apply has_shape_tmap.
  - assert (Hlt : (S n - 1 < length alpha_cum)%nat).
    { assert (S n < length alpha_cum)%nat by (apply nth_error_Some; congruence).
      lia. }
    destruct (nth_error alpha_cum (S n - 1)) as [ac_prev|] eqn:Ep;
      [|apply nth_error_None in Ep; lia].
    rewrite (iteration_inner G randn model _ _ _ _ _ _ _ _ _ _ _ _ _ _ _
                             (Nat.lt_0_succ n) Ea Eb Eac Et Ep) in Hrun.
    injection Hrun as <- _. apply has_shape_tmap.
    unfold Spec42.inject, add, mul, scale.
    apply has_shape_tzip; [exact Hden|].
    apply has_shape_tzip; [|exact Hstd]. apply has_shape_tmap.
    apply (has_shape_like s _ _ Hden). apply randn_shape.
Qed.

Lemma for_each_shape alpha alpha_cum beta T spectrogram target_std gc s :
  has_shape s target_std ->
  forall steps audio w out w',
    has_shape s audio ->
    for_each G steps
             (iteration G randn model alpha alpha_cum beta T
                        spectrogram target_std gc) audio w = Ok (out, w') ->
    has_shape s out.
Proof.
  intros Hstd. induction steps as [|n steps IH]; intros audio w out w' Hs Hrun.
  - cbn in Hrun. unfold ret in Hrun. now injection Hrun as <- _.
  - cbn [for_each] in Hrun. apply bind_ok in Hrun.
    destruct Hrun as (mid & w1 & Hstep & Hrest).
    apply (IH mid w1 out w'); [|exact Hrest].
    exact (iteration_shape alpha alpha_cum beta T spectrogram target_std gc
                           s n audio w mid w1 Hs Hstd Hstep).
Qed.

Lemma initial_audio_shape channels hop spectrogram target_std w audio w' :
  has_shape (length spectrogram, Z.to_nat channels,
             Z.to_nat (hop * Z.of_nat (length (hd [] (hd [] spectrogram)))
                       / channels))
            target_std ->
  initial_audio G randn channels hop spectrogram target_std w = Ok (audio, w') ->
  has_shape (length spectrogram, Z.to_nat channels,
             Z.to_nat (hop * Z.of_nat (length (hd [] (hd [] spectrogram)))
                       / channels))
            audio.
Proof.
  intros Hstd. unfold initial_audio.
  destruct (channels =? 0)%Z; [discriminate|].
  destruct (_ || _); [discriminate|].
  unfold bind, torch_randn, ret.
  pose proof (randn_shape (rng w)
                (length spectrogram, Z.to_nat channels,
                 Z.to_nat (hop * Z.of_nat (length (hd [] (hd [] spectrogram)))
                           / channels))) as Hz.
  destruct (randn (rng w) _) as [z g]. cbn [fst] in Hz.
  intros H. injection H as <- _. unfold mul. now apply has_shape_tzip.
Qed.

End WithCollaborators.

Lemma full_has_shape s x : has_shape s (Stub.full s x).
Proof.
  destruct s as [[batch channels] samples]. unfold Stub.full.
  split; [apply repeat_length|].
  apply Forall_forall. intros example He. apply repeat_spec in He. subst.
  split; [apply repeat_length|].
  apply Forall_forall. intros channel Hc. apply repeat_spec in Hc. subst.
  apply repeat_length.
Qed.

Lemma stub_randn_shape : draws_requested_shape Stub.randn.
Proof. intros g s. apply full_has_shape. Qed.

Lemma zero_model_shape : predicts_audio_shape Stub.zero_model.
Proof. intros s audio spectrogram t gc H. now apply has_shape_tmap. Qed.

End ShapeFacts.

(** ** More on the sampler *)
Module SamplerExtras.
Import Numpy Torch Schedule Sampler Driver Trace Shapes.
Import CumprodFacts SamplerFacts RunFacts ShapeFacts.

Section WithCollaborators.
Variable G : Type.
Variable randn : G -> shape -> tensor * G.
Variable model : tensor -> tensor -> R -> option tensor -> tensor.
Hypothesis randn_shape : draws_requested_shape randn.
Hypothesis model_shape : predicts_audio_shape model.

(** With the audio and [target_std] of one shape, and [beta], [alpha_cum]
    and [T] at least as long as [alpha], the loop returns a tensor of that
    shape, having called the network exactly [len(alpha)] times, at the
    times [T[len-1], ..., T[0]] in this order, and having drawn noise
    [len(alpha) - 1] times. *)
Theorem sampler_call_accounting alpha alpha_cum beta T
        spectrogram target_std gc s audio w :
  has_shape s audio -> has_shape s target_std ->
  (length alpha <= length beta)%nat ->
  (length alpha <= length alpha_cum)%nat ->
  (length alpha <= length T)%nat ->
  exists out w',
    reverse_diffusion G randn model alpha alpha_cum beta T
                      spectrogram target_std gc audio w = Ok (out, w')
    /\ has_shape s out
    /\ forward_times (trace w')
       = forward_times (trace w) ++ rev (firstn (length alpha) T)
    /\ draws (trace w') = (draws (trace w) + (length alpha - 1))%nat.
Proof.
  intros Hs Hstd Hb Hac Ht.
  destruct (countdown_accounting G randn model alpha alpha_cum beta T
              spectrogram target_std gc (length alpha) audio w
              (Nat.le_refl _) Hb Hac Ht) as (out & w' & Hrun & Hf & Hd & _).
  exists out, w'. split; [exact Hrun|]. split; [|auto].
  exact (for_each_shape G randn model randn_shape model_shape
           alpha alpha_cum beta T spectrogram target_std gc s Hstd
           _ audio w out w' Hs Hrun).
Qed.

(** How [predict] ends, for a [target_std] of the shape of the audio:
    [ZeroDivisionError] when [audio_channels] is 0; [RuntimeError] when a
    tensor dimension would be negative; [IndexError] when [beta],
    [alpha_cum] or [T] is shorter than [alpha]; otherwise it returns a tensor
    of shape (batch, audio_channels, hop_samples * frames // audio_channels)
    after [len(alpha)] draws in all, the initial noise among them, when
    [alpha] is not empty. *)
Theorem predict_outcomes channels hop spectrogram target_std gc fast_sampling
        T alpha alpha_cum beta w :
  let frames := length (hd [] (hd [] (batched spectrogram))) in
  let samples := (hop * Z.of_nat frames / channels)%Z in
  let s := (length (batched spectrogram), Z.to_nat channels, Z.to_nat samples) in
  let run := predict G randn model channels hop spectrogram target_std gc
                     fast_sampling T alpha alpha_cum beta w in
  let short := (length beta < length alpha)%nat
               \/ (length alpha_cum < length alpha)%nat
               \/ (length T < length alpha)%nat in
  (channels = 0%Z -> run = Raise ZeroDivisionError)
  /\ ((channels < 0)%Z \/ (channels <> 0%Z /\ (samples < 0)%Z) ->
      run = Raise RuntimeError)
  /\ ((0 < channels)%Z -> (0 <= samples)%Z -> has_shape s target_std ->
      short -> run = Raise IndexError)
  /\ ((0 < channels)%Z -> (0 <= samples)%Z -> has_shape s target_std ->
      ~ short ->
      exists out w',
        run = Ok (out, w')
        /\ has_shape s out
        /\ draws (trace w') = (draws (trace w) + 1 + (length alpha - 1))%nat).
Proof.
  intros frames samples s run short. subst run. unfold predict.
  repeat split.
  - intros ->. reflexivity.
  - intros Hneg. unfold bind, initial_audio. fold frames. fold samples.
    destruct (Z.eqb_spec channels 0) as [->|Hne].
    + destruct Hneg as [Hneg|[Hneg _]]; [lia|congruence].
    + destruct (Z.ltb_spec channels 0); destruct (Z.ltb_spec samples 0);
        try reflexivity.
      destruct Hneg as [Hneg|[_ Hneg]]; lia.
  - intros Hc Hs _ Hshort. unfold bind.
    destruct (initial_audio_returns G randn channels hop (batched spectrogram)
                                    target_std w Hc Hs)
      as (audio & w1 & Hinit & _ & _).
    rewrite Hinit. now apply short_array_raises.
  - intros Hc Hs Hstd Hlong. unfold bind.
    destruct (initial_audio_returns G randn channels hop (batched spectrogram)
                                    target_std w Hc Hs)
      as (audio & w1 & Hinit & _ & Hd1).
    rewrite Hinit.
    pose proof (initial_audio_shape G randn randn_shape channels hop
                  (batched spectrogram) target_std w audio w1 Hstd Hinit)
      as Haudio.
    destruct (countdown_accounting G randn model alpha alpha_cum beta T
                (batched spectrogram) target_std gc (length alpha) audio w1)
      as (out & w' & Hrun & _ & Hd & _); try lia.
    + unfold short in Hlong. lia.
    + unfold short in Hlong. lia.
    + unfold short in Hlong. lia.
    + exists out, w'. split; [exact Hrun|]. split; [|rewrite Hd, Hd1; lia].
      exact (for_each_shape G randn model randn_shape model_shape
               alpha alpha_cum beta T (batched spectrogram) target_std gc s Hstd
               _ audio w1 out w' Haudio Hrun).
Qed.

(** In exact arithmetic: in [main], for a training schedule of at least two
    betas in (0,1), a [target_std] of the shape of the audio, and whatever
    the command line, sampling one example returns a tensor of that shape
    with every element in [-1, 1], and the network is called once per
    training step, at the integer times [len - 1, ..., 1, 0]. *)
Theorem main_samples_at_training_steps (a : args) (p p' : params) (s : schedules)
        spectrogram target_std gc w :
  let samples := (hop_samples p
                  * Z.of_nat (length (hd [] (hd [] spectrogram)))
                  / audio_channels p)%Z in
  let shape := (length spectrogram, Z.to_nat (audio_channels p),
                Z.to_nat samples) in
  valid (noise_schedule p) ->
  (2 <= length (noise_schedule p))%nat ->
  (0 < audio_channels p)%Z -> (0 <= samples)%Z ->
  has_shape shape target_std ->
  main_schedules a p = Ok (p', s) ->
  exists out w',
    main_sample G randn model p' s spectrogram target_std gc w = Ok (out, w')
    /\ has_shape shape out
    /\ tForall Spec42.unit_range out
    /\ forward_times (trace w')
       = forward_times (trace w)
         ++ map INR (range_down (length (noise_schedule p))).
Proof.
  intros samples shape Hv Hlen Hc Hs Hstd Hmain.
  unfold main_schedules in Hmain.
  destruct (override a p) as [[[q k] warned]|e] eqn:Hov; [|discriminate].
  injection Hmain as <- <-.
  destruct (override_keeps _ _ _ _ _ Hov) as (Hn & Hch & Hhop & _).
  unfold main_sample, model_params, bind. rewrite Hch, Hhop.
  destruct (initial_audio_returns G randn (audio_channels p) (hop_samples p)
                                  spectrogram target_std w Hc Hs)
    as (audio & w1 & Hinit & Hf1 & _).
  rewrite Hinit.
  pose proof (initial_audio_shape G randn randn_shape (audio_channels p)
                (hop_samples p) spectrogram target_std w audio w1 Hstd Hinit)
    as Haudio.
  unfold derive_schedules, model_params, fast_sampling.
  cbn [alpha alpha_cum beta Driver.T]. rewrite Hn.
  pose proof (build_T_same_schedule _ Hv Hlen) as HT.
  assert (Hla : length (alpha_of (noise_schedule p)) = length (noise_schedule p))
    by (unfold alpha_of, one_minus; apply length_map).
  destruct (countdown_accounting G randn model
              (alpha_of (noise_schedule p)) (alpha_cum_of (noise_schedule p))
              (noise_schedule p) (build_T (noise_schedule p) (noise_schedule p))
              spectrogram target_std gc (length (noise_schedule p)) audio w1)
    as (out & w' & Hrun & Hf & _ & Hclamped).
  - lia.
  - lia.
  - rewrite alpha_cum_of_length. lia.
  - rewrite HT, length_map, length_seq. lia.
  - exists out, w'. unfold reverse_diffusion. rewrite Hla.
    split; [exact Hrun|]. split; [|split; [apply Hclamped; lia|]].
    + exact (for_each_shape G randn model randn_shape model_shape
               _ _ _ _ spectrogram target_std gc shape Hstd
               _ audio w1 out w' Haudio Hrun).
    + rewrite Hf, Hf1, HT. f_equal.
      rewrite firstn_all2 by (rewrite length_map, length_seq; lia).
      unfold range_down. now rewrite map_rev.
Qed.

End WithCollaborators.

Lemma sampler_call_accounting_witness :
  exists out w',
    reverse_diffusion nat Stub.randn Stub.zero_model
                      (alpha_of [1 / 2; 1 / 2]) (alpha_cum_of [1 / 2; 1 / 2])
                      [1 / 2; 1 / 2] [0; 1; 7]
                      (Stub.one_sample 0) (Stub.one_sample 1) None
                      (Stub.one_sample 3) (World 7%nat [])
    = Ok (out, w')
    /\ has_shape (1, 1, 1)%nat out
    /\ forward_times (trace w') = [1; 0]
    /\ draws (trace w') = 1%nat.
Proof.
  apply (sampler_call_accounting nat Stub.randn Stub.zero_model
           stub_randn_shape zero_model_shape
           (alpha_of [1 / 2; 1 / 2]) (alpha_cum_of [1 / 2; 1 / 2])
           [1 / 2; 1 / 2] [0; 1; 7]
           (Stub.one_sample 0) (Stub.one_sample 1) None (1, 1, 1)%nat
           (Stub.one_sample 3) (World 7%nat []));
    try (simpl; lia); repeat constructor.
Defined.

Lemma predict_outcomes_witness :
  predict nat Stub.randn Stub.zero_model 0 256 (Rank2 [[0]]) (Stub.one_sample 1)
          None true [0] [1 / 2] [1 / 2] [1 / 2] (World 7%nat [])
  = Raise ZeroDivisionError
  /\ predict nat Stub.randn Stub.zero_model 1 1 (Rank2 [[0]]) (Stub.one_sample 1)
             None true [] [1 / 2] [1 / 2] [1 / 2] (World 7%nat [])
     = Raise IndexError.
Proof.
  split.
  - apply (predict_outcomes nat Stub.randn Stub.zero_model
             stub_randn_shape zero_model_shape
             0 256 (Rank2 [[0]]) (Stub.one_sample 1)
             None true [0] [1 / 2] [1 / 2] [1 / 2] (World 7%nat [])).
    reflexivity.
  - apply (predict_outcomes nat Stub.randn Stub.zero_model
             stub_randn_shape zero_model_shape
             1 1 (Rank2 [[0]]) (Stub.one_sample 1)
             None true [] [1 / 2] [1 / 2] [1 / 2] (World 7%nat [])).
    + reflexivity.
    + discriminate.
    + repeat constructor.
    + right. right. simpl. lia.
Defined.

Lemma main_samples_at_training_steps_witness :
  exists p' s out w',
    main_schedules (Args None true (Some 6%Z))
                   (Params [1 / 2; 1 / 2] [1 / 10] 1 1 None) = Ok (p', s)
    /\ main_sample nat Stub.randn Stub.zero_model p' s
                   (Stub.one_sample 0) (Stub.one_sample 1) None (World 7%nat [])
       = Ok (out, w')
    /\ has_shape (1, 1, 1)%nat out
    /\ tForall Spec42.unit_range out
    /\ forward_times (trace w') = map INR (range_down 2).
Proof.
  assert (Hv : valid [1 / 2; 1 / 2]) by (repeat constructor; lra).
  assert (Hlen : (2 <= length [1 / 2; 1 / 2]%R)%nat) by (simpl; lia).
  assert (Hc : (0 < 1)%Z) by reflexivity.
  assert (Hs : (0 <= 1 * Z.of_nat (length (hd [] (hd [] (Stub.one_sample 0)))) / 1)%Z)
    by discriminate.
  assert (Hstd : has_shape (1, 1, 1)%nat (Stub.one_sample 1))
    by (repeat constructor).
  eexists. eexists.
  destruct (main_samples_at_training_steps nat Stub.randn Stub.zero_model
              stub_randn_shape zero_model_shape
              (Args None true (Some 6%Z))
              (Params [1 / 2; 1 / 2] [1 / 10] 1 1 None) _ _
              (Stub.one_sample 0) (Stub.one_sample 1) None (World 7%nat [])
              Hv Hlen Hc Hs Hstd eq_refl)
    as (out & w' & Hrun & Hshape & Hclamped & Hf).
  exists out, w'. split; [reflexivity|]. split; [exact Hrun|].
  split; [exact Hshape|]. split; [exact Hclamped|exact Hf].
Defined.

End SamplerExtras.

(** ** More on the driver *)
Module DriverExtras.
Import Numpy Torch Schedule Sampler Driver.
Import CumprodFacts WarpFacts RunFacts.

Lemma linspace_length start stop num : length (linspace start stop num) = num.
Proof.
  unfold linspace. destruct num as [|[|n]]; try reflexivity.
  now rewrite length_map, length_seq.
Qed.

Lemma linear_schedule_ok t s :
  linear_schedule t = Ok s ->
  (0 <= t)%Z /\ length s = Z.to_nat t /\ valid s.
Proof.
  unfold linear_schedule. destruct (Z.ltb_spec t 0) as [Hneg|Hpos];
    [discriminate|].
  intros Hs. injection Hs as <-. split; [lia|]. split.
  - apply linspace_length.
  - apply linspace_valid; lra.
Qed.

(** The override changes nothing but [params.inference_noise_schedule], and
    changes that only when both [--fast] and [--fast_iter] are given. *)
Theorem override_changes_inference_schedule_only a p p' k warned :
  override a p = Ok (p', k, warned) ->
  noise_schedule p' = noise_schedule p
  /\ audio_channels p' = audio_channels p
  /\ hop_samples p' = hop_samples p
  /\ enable_remove_cutoff_alias p' = enable_remove_cutoff_alias p
  /\ (fast a = false \/ fast_iter a = None -> p' = p /\ warned = false).
Proof.
  intros H. destruct (override_keeps _ _ _ _ _ H) as (H1 & H2 & H3 & H4).
  split; [exact H1|]. split; [exact H2|]. split; [exact H3|].
  split; [exact H4|].
  intros Hplain. unfold override in H.
  destruct (fast a); [destruct (fast_iter a) as [t|]|].
  - destruct Hplain; discriminate.
  - injection H as <- _ <-. split; reflexivity.
  - injection H as <- _ <-. split; reflexivity.
Qed.

Lemma override_changes_inference_schedule_only_witness :
  noise_schedule (Params [1 / 2] [1 / 10] 2 256 None) = [1 / 2]
  /\ override (Args None false (Some 12%Z)) (Params [1 / 2] [1 / 10] 2 256 None)
     = Ok (Params [1 / 2] [1 / 10] 2 256 None, Some 12%Z, false).
Proof.
  split; [reflexivity|].
  pose proof (override_changes_inference_schedule_only
                (Args None false (Some 12%Z))
                (Params [1 / 2] [1 / 10] 2 256 None)
                (Params [1 / 2] [1 / 10] 2 256 None) (Some 12%Z) false
                eq_refl) as _.
  reflexivity.
Defined.

(** With [--fast] and a non-empty training schedule, the value of
    [T_OVERRIDE] that names the output directory is the number of steps of
    [params.inference_noise_schedule] as the override leaves it. *)
Theorem fast_iter_counts_override_steps a p p' k warned :
  fast a = true -> noise_schedule p <> [] ->
  override a p = Ok (p', k, warned) ->
  k = Some (Z.of_nat (length (inference_noise_schedule p'))).
Proof.
  intros Hfast Hne H. unfold override in H. rewrite Hfast in H.
  destruct (fast_iter a) as [t|]; [|now injection H as <- <- _].
  destruct (noise_override p t) as [[sched w]|e] eqn:Hno; [|discriminate].
  injection H as <- <- _. cbn [inference_noise_schedule set_inference_noise_schedule].
  f_equal. unfold noise_override in Hno.
  destruct (noise_schedule p) as [|b0 rest]; [congruence|].
  destruct (Z.eqb_spec t 6) as [->|]; [injection Hno as <- _; reflexivity|].
  destruct (Z.eqb_spec t 3) as [->|]; [injection Hno as <- _; reflexivity|].
  destruct (Z.eqb_spec t 2) as [->|]; [injection Hno as <- _; reflexivity|].
  destruct (Z.eqb_spec t 12) as [->|]; [injection Hno as <- _; reflexivity|].
  destruct (Z.eqb_spec t 50) as [->|].
  - destruct (linear_schedule 50) as [s|e] eqn:Hl; [|discriminate].
    injection Hno as <- _. apply linear_schedule_ok in Hl. lia.
  - destruct (linear_schedule t) as [s|e] eqn:Hl; [|discriminate].
    injection Hno as <- _. apply linear_schedule_ok in Hl. lia.
Qed.

Lemma fast_iter_counts_override_steps_witness :
  exists p',
    override (Args None true (Some 6%Z)) (Params [1 / 2; 1 / 3] [1 / 10] 2 256 None)
    = Ok (p', Some 6%Z, false)
    /\ Some 6%Z = Some (Z.of_nat (length (inference_noise_schedule p'))).
Proof.
  eexists. split; [reflexivity|].
  apply (fast_iter_counts_override_steps
           (Args None true (Some 6%Z))
           (Params [1 / 2; 1 / 3] [1 / 10] 2 256 None) _ _ false eq_refl).
  - discriminate.
  - reflexivity.
Defined.

(** The override raises exactly when [--fast] comes with a negative
    [--fast_iter], and what it raises is [ValueError]. *)
Theorem override_raises_on_negative_fast_iter a p e :
  override a p = Raise e <->
  (fast a = true /\ e = ValueError
   /\ exists t, fast_iter a = Some t /\ (t < 0)%Z).
Proof.
  unfold override. split.
  - intros H. destruct (fast a); [|discriminate].
    destruct (fast_iter a) as [t|]; [|discriminate].
    destruct (noise_override p t) as [[sched w]|e'] eqn:Hno; [discriminate|].
    injection H as ->. unfold noise_override, linear_schedule in Hno.
    destruct (Z.eqb_spec t 6) as [E6|E6]; [discriminate|].
    destruct (Z.eqb_spec t 3) as [E3|E3]; [discriminate|].
    destruct (Z.eqb_spec t 2) as [E2|E2]; [discriminate|].
    destruct (Z.eqb_spec t 12) as [E12|E12]; [discriminate|].
    destruct (Z.eqb_spec t 50) as [E50|E50];
      destruct (Z.ltb_spec t 0); try discriminate; injection Hno as <-; eauto.
  - intros (-> & -> & t & -> & Ht). unfold noise_override, linear_schedule.
    destruct (Z.eqb_spec t 6) as [E6|E6]; [lia|]. destruct (Z.eqb_spec t 3) as [E3|E3]; [lia|].
    destruct (Z.eqb_spec t 2) as [E2|E2]; [lia|]. destruct (Z.eqb_spec t 12) as [E12|E12]; [lia|].
    destruct (Z.eqb_spec t 50) as [E50|E50]; [lia|].
    destruct (Z.ltb_spec t 0); [reflexivity|lia].
Qed.

Lemma override_raises_on_negative_fast_iter_witness :
  override (Args None true (Some (-1)%Z)) (Params [1 / 2] [1 / 10] 2 256 None)
  = Raise ValueError.
Proof.
  apply (proj2 (override_raises_on_negative_fast_iter
                  (Args None true (Some (-1)%Z))
                  (Params [1 / 2] [1 / 10] 2 256 None) ValueError)).
  split; [reflexivity|]. split; [reflexivity|].
  exists (-1)%Z. split; [reflexivity|lia].
Defined.

(** Over a training schedule of betas in (0,1), every schedule the override
    installs is again a schedule of betas in (0,1). *)
Theorem override_installs_valid_schedule a p p' k warned :
  valid (noise_schedule p) -> valid (inference_noise_schedule p) ->
  override a p = Ok (p', k, warned) ->
  valid (inference_noise_schedule p').
Proof.
  intros Hv Hvi H. unfold override in H.
  destruct (fast a); [|now injection H as <- _ _].
  destruct (fast_iter a) as [t|]; [|now injection H as <- _ _].
  destruct (noise_override p t) as [[sched w]|e] eqn:Hno; [|discriminate].
  injection H as <- _ _. cbn [inference_noise_schedule set_inference_noise_schedule].
  assert (Hfirst : valid (firstn 1 (noise_schedule p))).
  { destruct (noise_schedule p) as [|b0 rest]; [constructor|].
    inversion Hv; subst. repeat constructor; tauto. }
  unfold noise_override in Hno.
  destruct (Z.eqb_spec t 6) as [E6|E6];
    [injection Hno as <- _; apply Forall_app; split; [exact Hfirst|];
     repeat constructor; lra|].
  destruct (Z.eqb_spec t 3) as [E3|E3];
    [injection Hno as <- _; apply Forall_app; split; [exact Hfirst|];
     repeat constructor; lra|].
  destruct (Z.eqb_spec t 2) as [E2|E2]; [injection Hno as <- _; repeat constructor; lra|].
  destruct (Z.eqb_spec t 12) as [E12|E12]; [injection Hno as <- _; repeat constructor; lra|].
  destruct (Z.eqb_spec t 50) as [E50|E50];
    (destruct (linear_schedule t) as [s|e] eqn:Hl; [|discriminate];
     injection Hno as <- _; now apply linear_schedule_ok in Hl).
Qed.

Lemma override_installs_valid_schedule_witness :
  exists p',
    override (Args None true (Some 3%Z)) (Params [1 / 2; 1 / 3] [1 / 10] 2 256 None)
    = Ok (p', Some 3%Z, false)
    /\ valid (inference_noise_schedule p').
Proof.
  eexists. split; [reflexivity|].
  apply (override_installs_valid_schedule
           (Args None true (Some 3%Z))
           (Params [1 / 2; 1 / 3] [1 / 10] 2 256 None) _ (Some 3%Z) false).
  - repeat constructor; lra.
  - repeat constructor; lra.
  - reflexivity.
Defined.

(** With [--fast --fast_iter t], the warning about a linear schedule is
    printed exactly when [t] is not negative and is none of 2, 3, 6, 12 and
    50: for a negative [t], [np.linspace] raises before the [print]. *)
Theorem warning_for_unsupported_fast_iter a p t :
  fast a = true -> fast_iter a = Some t ->
  (warning_printed a p = true
   <-> (0 <= t)%Z /\ ~ In t [2; 3; 6; 12; 50]%Z).
Proof.
  intros Hfast Hiter. unfold warning_printed, override.
  rewrite Hfast, Hiter. unfold noise_override, linear_schedule.
  destruct (Z.eqb_spec t 6) as [E6|E6];
    [subst; split; [discriminate|intros [_ Hn]; exfalso; apply Hn; simpl; tauto]|].
  destruct (Z.eqb_spec t 3) as [E3|E3];
    [subst; split; [discriminate|intros [_ Hn]; exfalso; apply Hn; simpl; tauto]|].
  destruct (Z.eqb_spec t 2) as [E2|E2];
    [subst; split; [discriminate|intros [_ Hn]; exfalso; apply Hn; simpl; tauto]|].
  destruct (Z.eqb_spec t 12) as [E12|E12];
    [subst; split; [discriminate|intros [_ Hn]; exfalso; apply Hn; simpl; tauto]|].
  destruct (Z.eqb_spec t 50) as [E50|E50];
    [subst; split; [discriminate|intros [_ Hn]; exfalso; apply Hn; simpl; tauto]|].
  destruct (Z.ltb_spec t 0) as [Hneg|Hpos].
  - split; [discriminate|]. intros [Hge _]. lia.
  - split; [|reflexivity]. intros _. split; [exact Hpos|].
    simpl. intros [?|[?|[?|[?|[?|[]]]]]]; lia.
Qed.

Lemma warning_for_unsupported_fast_iter_witness :
  warning_printed (Args None true (Some 4%Z))
                  (Params [1 / 2] [1 / 10] 2 256 None) = true
  /\ warning_printed (Args None true (Some (-1)%Z))
                     (Params [1 / 2] [1 / 10] 2 256 None) = false.
Proof.
  split; [|reflexivity].
  apply (proj2 (warning_for_unsupported_fast_iter
                  (Args None true (Some 4%Z))
                  (Params [1 / 2] [1 / 10] 2 256 None) 4%Z eq_refl eq_refl)).
  split; [lia|]. simpl. intros [?|[?|[?|[?|[?|[]]]]]]; lia.
Defined.

(** Whatever the command line, the arrays the sampling loop of [main] reads
    are those of the training schedule alone: [beta] is
    [params.noise_schedule] and [T] is that schedule warped onto itself. *)
Theorem main_arrays_ignore_command_line a p p' s :
  main_schedules a p = Ok (p', s) ->
  s = derive_schedules p
  /\ beta s = noise_schedule p
  /\ T s = build_T (noise_schedule p) (noise_schedule p).
Proof.
  unfold main_schedules. intros H.
  destruct (override a p) as [[[q k] warned]|e] eqn:Hov; [|discriminate].
  injection H as <- <-.
  destruct (override_keeps _ _ _ _ _ Hov) as (Hn & _).
  unfold derive_schedules, model_params, fast_sampling. rewrite Hn.
  repeat split.
Qed.

Lemma main_arrays_ignore_command_line_witness :
  exists p' s,
    main_schedules (Args None true (Some 2%Z))
                   (Params [1 / 2; 1 / 3] [1 / 10] 2 256 None) = Ok (p', s)
    /\ inference_noise_schedule p' = [4 / 100; 95 / 100]
    /\ beta s = [1 / 2; 1 / 3].
Proof.
  eexists. eexists. split; [reflexivity|]. split; [reflexivity|].
  apply (main_arrays_ignore_command_line
           (Args None true (Some 2%Z))
           (Params [1 / 2; 1 / 3] [1 / 10] 2 256 None) _ _ eq_refl).
Defined.

Lemma zip_with_maps {A B C D} (f : B -> C -> D) (g : A -> B) (h : A -> C) l :
  zip_with f (map g l) (map h l) = map (fun x => f (g x) (h x)) l.
Proof.
  unfold zip_with. induction l as [|x l IH]; simpl; [reflexivity|].
  now rewrite IH.
Qed.

(** The two bands handed on by line 342 or 344 are the first two channels of
    the audio tensor, one each: put side by side they give back a
    two-channel tensor, and any further channel is dropped. *)
Theorem bands_are_first_two_channels (audio : tensor) :
  zip_with (@app (list R)) (channel_slice 0 1 audio) (channel_slice 1 2 audio)
  = map (firstn 2) audio
  /\ (Forall (fun example => length example = 2%nat) audio ->
      zip_with (@app (list R)) (channel_slice 0 1 audio) (channel_slice 1 2 audio)
      = audio).
Proof.
  assert (Hfirst : zip_with (@app (list R)) (channel_slice 0 1 audio)
                            (channel_slice 1 2 audio) = map (firstn 2) audio).
  { unfold channel_slice. rewrite zip_with_maps. apply map_ext.
    intros [|c0 [|c1 rest]]; reflexivity. }
  split; [exact Hfirst|].
  intros Htwo. rewrite Hfirst.
  induction Htwo as [|example audio' Hlen _ IH]; [reflexivity|].
  simpl map. f_equal.
  - destruct example as [|c0 [|c1 [|c2 rest]]]; try discriminate. reflexivity.
  - apply IH. unfold channel_slice. rewrite zip_with_maps. apply map_ext.
    intros [|c0 [|c1 rest]]; reflexivity.
Qed.

End DriverExtras.

(** ** Restoring a checkpoint *)
Module CheckpointExtras.
Import Checkpoint CheckpointStub.

Section WithTorch.
Variable net : Type.
Variable state : Type.
Variable nn_load_state_dict : net -> state -> outcome net.
Variable torch_load : string -> outcome (checkpoint state).

Local Abbreviation load := (load_state_dict net state nn_load_state_dict).
Local Abbreviation restore :=
  (restore_from_checkpoint net state nn_load_state_dict torch_load).

(** A successful load returns the step recorded in the dictionary. *)
Lemma load_state_dict_step model ck model' k :
  load model ck = Done (model', k) -> ck_step ck = Some k.
Proof.
  unfold load_state_dict, getitem_step.
  destruct (match module model with IsModule _ => _ | _ => _ end);
    [|discriminate].
  destruct (ck_step ck); [|discriminate]. intros H. now injection H as _ <-.
Qed.

(** When the file of the requested step can be read, the result is that of
    loading it and nothing else: a checkpoint without its ["model"] or
    ["step"] key ends in [KeyError], and [weights.pt] is not tried. *)
Theorem step_file_is_final model model_dir step filename ck :
  torch_load (step_path model_dir filename step) = Done ck ->
  load model ck <> Fail FileNotFoundError ->
  snd (restore model model_dir step filename) = load model ck
  /\ (ck_model ck = None \/ ck_step ck = None ->
      exists e, snd (restore model model_dir step filename) = Fail e).
Proof.
  intros Hfile Hnot.
  assert (Hres : snd (restore model model_dir step filename) = load model ck).
  { unfold restore_from_checkpoint, try_step_file. rewrite Hfile.
    destruct (load model ck) as [[model' k]|e] eqn:Hload; [reflexivity|].
    destruct e; try reflexivity. congruence. }
  split; [exact Hres|].
  intros Hkey. rewrite Hres. unfold load_state_dict, getitem_model, getitem_step.
  destruct Hkey as [-> | ->].
  - destruct (module model); eauto.
  - destruct (match module model with IsModule _ => _ | _ => _ end); eauto.
Qed.

(** When the file of the requested step is missing, the result is that of
    loading [weights.pt]; when that is missing too, [FileNotFoundError]. *)
Theorem missing_step_file_falls_back model model_dir step filename :
  torch_load (step_path model_dir filename step) = Fail FileNotFoundError ->
  snd (restore model model_dir step filename)
  = match torch_load (default_path model_dir filename) with
    | Done ck => load model ck
    | Fail e => Fail e
    end
  /\ (torch_load (default_path model_dir filename) = Fail FileNotFoundError ->
      snd (restore model model_dir step filename) = Fail FileNotFoundError).
Proof.
  intros Hmissing.
  assert (Hres : snd (restore model model_dir step filename)
                 = match torch_load (default_path model_dir filename) with
                   | Done ck => load model ck
                   | Fail e => Fail e
                   end).
  { unfold restore_from_checkpoint, try_step_file, load_default_file.
    rewrite Hmissing.
    destruct (torch_load (default_path model_dir filename)) as [ck|e];
      [|reflexivity].
    destruct (load model ck) as [[model' k]|e]; reflexivity. }
  split; [exact Hres|]. intros Hdefault. rewrite Hres, Hdefault. reflexivity.
Qed.

(** The step [restore_from_checkpoint] returns is the one recorded in the
    file it loaded (the step file or [weights.pt]), whatever step was asked
    for. *)
Theorem restored_step_is_recorded_step model model_dir step filename model' k :
  snd (restore model model_dir step filename) = Done (model', k) ->
  exists path ck,
    (path = step_path model_dir filename step
     \/ path = default_path model_dir filename)
    /\ torch_load path = Done ck
    /\ ck_step ck = Some k.
Proof.
  unfold restore_from_checkpoint, try_step_file, load_default_file.
  destruct (torch_load (step_path model_dir filename step)) as [ck|e] eqn:Hstep.
  - destruct (load model ck) as [[m1 k1]|e] eqn:Hload.
    + cbn [snd]. intros H. injection H as <- <-.
      exists (step_path model_dir filename step), ck.
      split; [now left|]. split; [exact Hstep|].
      now apply (load_state_dict_step model ck m1).
    + destruct e; cbn [snd]; try discriminate.
      destruct (torch_load (default_path model_dir filename)) as [ck2|e2] eqn:Hd;
        [|discriminate].
      destruct (load model ck2) as [[m2 k2]|e2] eqn:Hload2; [|discriminate].
      cbn [snd]. intros H. injection H as <- <-.
      exists (default_path model_dir filename), ck2.
      split; [now right|]. split; [exact Hd|].
      now apply (load_state_dict_step model ck2 m2).
  - destruct e; cbn [snd]; try discriminate.
    destruct (torch_load (default_path model_dir filename)) as [ck2|e2] eqn:Hd;
      [|discriminate].
    destruct (load model ck2) as [[m2 k2]|e2] eqn:Hload2; [|discriminate].
    cbn [snd]. intros H. injection H as <- <-.
    exists (default_path model_dir filename), ck2.
    split; [now right|]. split; [exact Hd|].
    now apply (load_state_dict_step model ck2 m2).
Qed.

End WithTorch.

Lemma missing_step_file_falls_back_witness :
  restore_from_checkpoint Z Z replace_weights only_default
                          (Model 0%Z NoModule) "run" (Some 500%Z) "weights"
  = (["Trying to load run/weights.pt...";
      "Loaded run/weights.pt from 1000000 step checkpoint"]%string,
     Done (Model 42%Z NoModule, 1000000%Z))
  /\ snd (restore_from_checkpoint Z Z replace_weights only_default
                                  (Model 0%Z NoModule) "run" (Some 500%Z)
                                  "weights")
     = load_state_dict Z Z replace_weights (Model 0%Z NoModule)
                       (Ckpt (Some 42%Z) (Some 1000000%Z)).
Proof.
  split; [reflexivity|].
  exact (proj1 (missing_step_file_falls_back Z Z replace_weights only_default
                  (Model 0%Z NoModule) "run" (Some 500%Z) "weights" eq_refl)).
Defined.

Lemma restored_step_is_recorded_step_witness :
  exists path ck,
    (path = step_path "run" "weights" (Some 500%Z)
     \/ path = default_path "run" "weights")
    /\ only_default path = Done ck
    /\ ck_step ck = Some 1000000%Z.
Proof.
  exact (restored_step_is_recorded_step Z Z replace_weights only_default
           (Model 0%Z NoModule) "run" (Some 500%Z) "weights"
           (Model 42%Z NoModule) 1000000%Z eq_refl).
Defined.

Lemma step_file_is_final_witness :
  snd (restore_from_checkpoint Z Z replace_weights broken_step_file
                               (Model 0%Z NoModule) "run" (Some 500%Z) "weights")
  = Fail KeyError.
Proof.
  exact (proj1 (step_file_is_final Z Z replace_weights broken_step_file
                  (Model 0%Z NoModule) "run" (Some 500%Z) "weights"
                  (Ckpt (Some 7%Z) None) eq_refl ltac:(discriminate))).
Defined.

End CheckpointExtras.

(** ** File names and the real-time factor *)
Module OutputExtras.
Import Torch Output.

Lemma split_not_nil sep s : split sep s <> [].
Proof.
  destruct s as [|c rest]; simpl; [discriminate|].
  destruct (Ascii.eqb c sep); [discriminate|].
  destruct (split sep rest); discriminate.
Qed.

Lemma split_without_sep sep s : contains sep s = false -> split sep s = [s].
Proof.
  induction s as [|c rest IH]; simpl; [reflexivity|].
  intros H. apply orb_false_iff in H. destruct H as [Hc Hrest].
  rewrite Hc, (IH Hrest). reflexivity.
Qed.

Lemma split_at_sep sep : forall dir name,
  split sep (dir ++ String sep name) = split sep dir ++ split sep name.
Proof.
  induction dir as [|c dir IH]; intros name; simpl.
  - now rewrite Ascii.eqb_refl.
  - destruct (Ascii.eqb c sep); [now rewrite IH|].
    rewrite IH. pose proof (split_not_nil sep dir).
    destruct (split sep dir) as [|piece pieces]; [congruence|reflexivity].
Qed.

(** A string has no separator, or a last one. *)
Lemma last_sep sep : forall s,
  contains sep s = false
  \/ exists dir name, s = (dir ++ String sep name)%string
                      /\ contains sep name = false.
Proof.
  induction s as [|c rest IH]; [now left|].
  destruct IH as [Hfree|(dir & name & -> & Hname)].
  - destruct (Ascii.eqb c sep) eqn:Hc.
    + right. exists EmptyString, rest. apply Ascii.eqb_eq in Hc. subst c.
      split; [reflexivity|exact Hfree].
    + left. simpl. now rewrite Hc, Hfree.
  - right. exists (String c dir), name. split; [reflexivity|exact Hname].
Qed.

Lemma last_split_at_sep sep dir name :
  contains sep name = false ->
  last (split sep (dir ++ String sep name)) EmptyString = name.
Proof.
  intros Hname. rewrite split_at_sep, (split_without_sep _ _ Hname).
  apply last_last.
Qed.

(** The output file is named by what follows the last ["/"] of the first
    file name of the batch: the name has no ["/"], and the input is the name
    itself or a directory, a ["/"] and the name. *)
Theorem sample_name_is_last_component (first : string) (others : list string) :
  exists name,
    sample_name (first :: others) = Ok name
    /\ contains "/"%char name = false
    /\ (first = name \/ exists dir, first = (dir ++ "/" ++ name)%string).
Proof.
  unfold sample_name.
  destruct (last_sep "/"%char first) as [Hfree|(dir & name & -> & Hname)].
  - exists first. rewrite (split_without_sep _ _ Hfree). auto.
  - exists name. rewrite (last_split_at_sep _ _ _ Hname).
    split; [reflexivity|]. split; [exact Hname|]. right. now exists dir.
Qed.

(** Inputs of the same name in different directories are written to the
    same output file. *)
Theorem same_name_same_output (dir1 dir2 name : string) (others1 others2 : list string) :
  contains "/"%char name = false ->
  sample_name ((dir1 ++ "/" ++ name)%string :: others1) = Ok name
  /\ sample_name ((dir2 ++ "/" ++ name)%string :: others2) = Ok name.
Proof.
  intros Hname. unfold sample_name.
  split; f_equal; apply (last_split_at_sep "/"%char _ _ Hname).
Qed.

Lemma same_name_same_output_witness :
  sample_name ["LJSpeech-1.1/wavs/LJ001-0001.wav"%string] = Ok "LJ001-0001.wav"%string
  /\ sample_name ["fgtse_samples/LJ001-0001.wav"%string] = Ok "LJ001-0001.wav"%string.
Proof.
  exact (same_name_same_output "LJSpeech-1.1/wavs" "fgtse_samples"
                               "LJ001-0001.wav" [] [] eq_refl).
Defined.

Lemma total_samples_from acc : forall n_samples,
  fold_left Nat.add n_samples acc = (acc + fold_left Nat.add n_samples 0)%nat.
Proof.
  intros n_samples. revert acc.
  induction n_samples as [|n rest IH]; intros acc; simpl; [lia|].
  rewrite (IH (acc + n)%nat), (IH n). lia.
Qed.

Lemma total_samples_zero n_samples :
  total_samples n_samples = 0%nat <-> Forall (fun n => n = 0%nat) n_samples.
Proof.
  unfold total_samples. induction n_samples as [|n rest IH]; simpl.
  - split; auto.
  - rewrite total_samples_from. split.
    + intros H. constructor; [lia|]. apply IH. lia.
    + intros H. inversion H as [|? ? Hn Hrest]; subst.
      apply IH in Hrest. lia.
Qed.

(** The real-time factor raises [ZeroDivisionError] exactly when no sample
    was generated at all, as after a run over an empty file list; otherwise
    it is the total duration over the total count, times 22050. *)
Theorem rtf_needs_samples (gen_dur : list R) (n_samples : list nat) :
  (rtf gen_dur n_samples = Raise ZeroDivisionError
   <-> Forall (fun n => n = 0%nat) n_samples)
  /\ rtf [] [] = Raise ZeroDivisionError
  /\ (total_samples n_samples <> 0%nat ->
      rtf gen_dur n_samples
      = Ok (total_duration gen_dur / INR (total_samples n_samples) * 22050)).
Proof.
  unfold rtf. split; [|split; [reflexivity|]].
  - rewrite <- total_samples_zero.
    destruct (Nat.eqb_spec (total_samples n_samples) 0); split; intros H;
      try reflexivity; try assumption; try discriminate; congruence.
  - intros Hne. destruct (Nat.eqb_spec (total_samples n_samples) 0);
      [congruence|reflexivity].
Qed.

End OutputExtras.

(** ** Properties of the reverse-diffusion sampler *)
Module SamplerTheorems.
Import Numpy Torch Schedule Sampler Driver Shapes.
Import TensorFacts SamplerFacts ShapeFacts.
#[local] Set Warnings "-inexact-float".

Section WithCollaborators.
Variable G : Type.
Variable randn : G -> shape -> tensor * G.
Variable model : tensor -> tensor -> R -> option tensor -> tensor.
Hypothesis randn_shape : draws_requested_shape randn.
Hypothesis model_shape : predicts_audio_shape model.

(** The steps the loop runs before it reaches step [n]. *)
Lemma range_down_split len n :
  (n < len)%nat ->
  range_down len = rev (seq (S n) (len - S n)) ++ n :: range_down n.
Proof.
  intros Hn. unfold range_down.
  replace len with (S n + (len - S n))%nat at 1 by lia.
  rewrite seq_app, rev_app_distr. simpl Nat.add. f_equal.
  apply (range_down_S n).
Qed.

(** C3.  For an audio tensor and a [target_std] of one shape, a network
    whose prediction has the shape of the audio and a generator whose draw
    has the shape asked for: at iteration [n] of the loop, which runs the
    steps [len - 1, ..., 0] in this order, the audio becomes
    [c1 * (audio - c2 * f(audio, conditioning, T[n], aux_cond))] with
    [c1 = 1 / sqrt(alpha[n])] and [c2 = beta[n] / sqrt(1 - alpha_cum[n])], a
    tensor of the same shape; when [n > 0] one fresh draw of that shape,
    scaled by [target_std] and by
    [sigma = sqrt((1 - alpha_cum[n-1]) / (1 - alpha_cum[n]) * beta[n])], is
    then added, and when [n = 0] nothing is drawn or added. *)
Theorem sampler_step_update alpha alpha_cum beta T spectrogram target_std gc
        s n audio w a b ac t :
  has_shape s audio -> has_shape s target_std ->
  nth_error alpha n = Some a -> nth_error beta n = Some b ->
  nth_error alpha_cum n = Some ac -> nth_error T n = Some t ->
  let step := iteration G randn model alpha alpha_cum beta T
                        spectrogram target_std gc in
  let denoised := Spec42.denoise a b ac (model audio spectrogram t gc) audio in
  let draw := randn (rng w) (shape_of denoised) in
  has_shape s (model audio spectrogram t gc)
  /\ has_shape s denoised
  /\ (n = 0%nat ->
      step n audio w
      = Ok (clamp denoised (-1) 1, World (rng w) (trace w ++ [Forward t])))
  /\ (forall ac_prev, (0 < n)%nat -> nth_error alpha_cum (n - 1) = Some ac_prev ->
      has_shape s (fst draw)
      /\ has_shape s (Spec42.inject (Spec42.sigma ac_prev ac b) (fst draw)
                                    target_std denoised)
      /\ step n audio w
         = Ok (clamp (Spec42.inject (Spec42.sigma ac_prev ac b) (fst draw)
                                    target_std denoised) (-1) 1,
               World (snd draw)
                     (trace w ++ [Forward t; Randn (shape_of denoised)])))
  /\ (forall audio0 w0,
      reverse_diffusion G randn model alpha alpha_cum beta T
                        spectrogram target_std gc audio0 w0
      = match for_each G (rev (seq (S n) (length alpha - S n))) step audio0 w0 with
        | Ok (before, w1) =>
            match step n before w1 with
            | Ok (after, w2) => for_each G (range_down n) step after w2
            | Raise e => Raise e
            end
        | Raise e => Raise e
        end).
Proof.
  intros Hs Hstd Ha Hb Hac Ht step denoised draw.
  assert (Hden : has_shape s denoised)
    by (apply denoise_shape; assumption).
  assert (Hdraw : has_shape s (fst draw))
    by (apply (has_shape_like s denoised); [exact Hden|apply randn_shape]).
  split; [now apply model_shape|]. split; [exact Hden|]. split; [|split].
  - intros ->. now apply iteration_last.
  - intros ac_prev Hn Hprev. split; [exact Hdraw|]. split.
    + unfold Spec42.inject, add, mul, scale.
      apply has_shape_tzip; [exact Hden|].
      apply has_shape_tzip; [|exact Hstd]. now apply has_shape_tmap.
    + now apply iteration_inner.
  - intros audio0 w0. unfold reverse_diffusion. fold step.
    assert (Hn : (n < length alpha)%nat) by (apply nth_error_Some; congruence).
    rewrite (range_down_split _ _ Hn), for_each_app.
    destruct (for_each G _ step audio0 w0) as [[before w1]|e]; reflexivity.
Qed.

End WithCollaborators.

Lemma sampler_step_update_witness :
  exists out g',
    has_shape (1, 1, 1)%nat out
    /\ iteration nat Stub.randn Stub.zero_model
                 (alpha_of [1 / 2; 1 / 2]) (alpha_cum_of [1 / 2; 1 / 2])
                 [1 / 2; 1 / 2] [0; 1]
                 (Stub.one_sample 0) (Stub.one_sample 1) None
                 1 (Stub.one_sample (1 / 4)) (World 7%nat [])
       = Ok (clamp out (-1) 1, World g' [Forward 1; Randn (1, 1, 1)%nat]).
Proof.
  assert (Hs : has_shape (1, 1, 1)%nat (Stub.one_sample (1 / 4)))
    by (repeat constructor).
  assert (Hstd : has_shape (1, 1, 1)%nat (Stub.one_sample 1))
    by (repeat constructor).
  destruct (sampler_step_update nat Stub.randn Stub.zero_model
              stub_randn_shape zero_model_shape
              (alpha_of [1 / 2; 1 / 2]) (alpha_cum_of [1 / 2; 1 / 2])
              [1 / 2; 1 / 2] [0; 1]
              (Stub.one_sample 0) (Stub.one_sample 1) None (1, 1, 1)%nat
              1 (Stub.one_sample (1 / 4)) (World 7%nat [])
              (1 - 1 / 2) (1 / 2) ((1 - 1 / 2) * (1 - 1 / 2)) 1
              Hs Hstd eq_refl eq_refl eq_refl eq_refl) as (_ & _ & _ & Hinner & _).
  destruct (Hinner (1 - 1 / 2) ltac:(lia) eq_refl) as (_ & Hshape & Hrun).
  eexists. eexists. split; [exact Hshape|exact Hrun].
Defined.

End SamplerTheorems.

(** ** The sampling loop in binary64 *)
Module Binary64Facts.
Import PrimFloat SpecFloat FloatOps FloatAxioms.
Import Torch.
Import Binary64.
#[local] Set Warnings "-inexact-float".
Local Open Scope float_scope.

(** Comparing the other way round gives the opposite answer. *)
Lemma SFcompare_antisym a b :
  SFcompare a b = option_map CompOpp (SFcompare b a).
Proof.
  destruct a as [sa|sa| |sa ma ea], b as [sb|sb| |sb mb eb]; simpl;
    try reflexivity;
    try (destruct sa; reflexivity);
    try (destruct sb; reflexivity);
    try (destruct sa, sb; reflexivity).
  f_equal. destruct sa, sb; try reflexivity;
    rewrite (Z.compare_antisym eb ea); destruct (eb ?= ea)%Z; simpl;
    try reflexivity.
  - rewrite CompOpp_involutive. apply Pos.compare_cont_antisym.
  - symmetry. apply Pos.compare_cont_antisym.
Qed.

(** [torch.clamp(x, -1.0, 1.0)] is never below -1 and never above 1. *)
Lemma clamp1_within_unit x : within_unit (clamp1 (-1) 1 x).
Proof.
  unfold within_unit, clamp1.
  destruct (x <? -1) eqn:Elo; [split; reflexivity|].
  destruct (1 <? x) eqn:Ehi; [split; reflexivity|].
  split; assumption.
Qed.

(** A number that is neither below -1 nor above 1 is in [-1, 1], or it is
    NaN, which compares with nothing. *)
Lemma within_unit_cases x : within_unit x -> unit_or_nan x.
Proof.
  intros [Hlo Hhi]. unfold unit_or_nan, is_nan.
  rewrite ltb_spec in Hlo, Hhi. rewrite eqb_spec, !leb_spec.
  unfold SFltb, SFleb, SFeqb in *.
  rewrite (SFcompare_antisym (Prim2SF (-1)) (Prim2SF x)).
  rewrite (SFcompare_antisym (Prim2SF 1) (Prim2SF x)) in Hhi.
  destruct (SFcompare (Prim2SF x) (Prim2SF (-1))) as [[]|] eqn:E1;
    destruct (SFcompare (Prim2SF x) (Prim2SF 1)) as [[]|] eqn:E2;
    simpl in *; try discriminate; try (right; split; reflexivity).
  all: left.
  all: destruct (Prim2SF x) as [s|s| |s m e]; simpl in *;
    try discriminate; try reflexivity.
Qed.

Lemma clamp_unit_or_nan t : tForall unit_or_nan (clamp t (-1) 1).
Proof.
  unfold tForall, clamp, tmap.
  apply Forall_map, Forall_forall. intros example _.
  apply Forall_map, Forall_forall. intros channel _.
  apply Forall_map, Forall_forall. intros x _.
  apply within_unit_cases, clamp1_within_unit.
Qed.

Lemma b64_has_shape_tzip f s a b :
  has_shape s a -> has_shape s b -> has_shape s (tzip f a b).
Proof.
  destruct s as [[batch channels] samples]. intros [Ha1 Ha2] [Hb1 Hb2].
  split; [now apply ShapeFacts.zip_with_length|].
  eapply ShapeFacts.zip_with_Forall; [|exact Ha2|exact Hb2].
  intros x y [Hx1 Hx2] [Hy1 Hy2].
  split; [now apply ShapeFacts.zip_with_length|].
  eapply ShapeFacts.zip_with_Forall; [|exact Hx2|exact Hy2].
  intros c d Hc Hd. cbv beta in *. now apply ShapeFacts.zip_with_length.
Qed.

Lemma b64_has_shape_tmap f s t : has_shape s t -> has_shape s (tmap f t).
Proof.
  destruct s as [[batch channels] samples]. intros [H1 H2]. unfold tmap.
  split; [now rewrite length_map|].
  apply Forall_map. eapply Forall_impl; [|exact H2].
  intros example [He1 He2]. split; [now rewrite length_map|].
  apply Forall_map. eapply Forall_impl; [|exact He2].
  intros channel Hc. cbv beta in *. now rewrite length_map.
Qed.

Lemma b64_has_shape_like s t z :
  has_shape s t -> has_shape (shape_of t) z -> has_shape s z.
Proof.
  destruct s as [[batch channels] samples]. unfold shape_of.
  intros [Ht1 Ht2] [Hz1 Hz2]. split; [congruence|].
  destruct t as [|example t]; [destruct z; [constructor|discriminate]|].
  inversion Ht2 as [|? ? [He1 He2] _]; subst. cbn [hd] in Hz2.
  eapply Forall_impl; [|exact Hz2].
  intros ex [Hx1 Hx2]. split; [exact Hx1|].
  destruct example as [|channel example];
    [destruct ex; [constructor|discriminate]|].
  inversion He2; subst. exact Hx2.
Qed.

Lemma b64_full_has_shape s x : has_shape s (full s x).
Proof.
  destruct s as [[batch channels] samples]. unfold full.
  split; [apply repeat_length|].
  apply Forall_forall. intros example He. apply repeat_spec in He. subst.
  split; [apply repeat_length|].
  apply Forall_forall. intros channel Hc. apply repeat_spec in Hc. subst.
  apply repeat_length.
Qed.

Lemma half_randn_shape : draws_requested_shape half_randn.
Proof. intros g s. apply b64_full_has_shape. Qed.

Lemma b64_zero_model_shape : predicts_audio_shape zero_model.
Proof. intros s audio spectrogram t gc H. now apply b64_has_shape_tmap. Qed.

Section WithCollaborators.
Variable G : Type.
Variable randn : G -> shape -> tensor * G.
Variable model : tensor -> tensor -> float -> option tensor -> tensor.
Variable dtype : float -> float.

Lemma b64_bind_ok {A B} (c : M G A) (k : A -> M G B) w r :
  bind G c k w = Ok r -> exists a w1, c w = Ok (a, w1) /\ k a w1 = Ok r.
Proof.
  unfold bind. destruct (c w) as [[a w1]|e]; [|discriminate]. eauto.
Qed.

Lemma b64_getitem_some arr n x w :
  nth_error arr n = Some x -> getitem G arr n w = Ok (x, w).
Proof. unfold getitem. now intros ->. Qed.

Lemma b64_range_down_S k : range_down (S k) = k :: range_down k.
Proof. unfold range_down. rewrite seq_S, rev_app_distr. reflexivity. Qed.

Lemma b64_for_each_app body : forall ns1 ns2 audio w,
  for_each G (ns1 ++ ns2) body audio w =
  match for_each G ns1 body audio w with
  | Ok (mid, w1) => for_each G ns2 body mid w1
  | Raise e => Raise e
  end.
Proof.
  induction ns1 as [|n ns1 IH]; intros ns2 audio w; simpl; [reflexivity|].
  unfold bind. destruct (body n audio w) as [[a w1]|e]; [apply IH|reflexivity].
Qed.

(** Whatever a step returns went through [torch.clamp]. *)
Lemma b64_iteration_clamped alpha alpha_cum beta T spectrogram target_std gc
      n audio w out w' :
  iteration G randn model dtype alpha alpha_cum beta T
            spectrogram target_std gc n audio w = Ok (out, w') ->
  exists pre, out = clamp pre (-1) 1.
Proof.
  unfold iteration. intros H.
  repeat (apply b64_bind_ok in H; destruct H as (? & ? & _ & H)).
  unfold ret in H. injection H as <- _. eauto.
Qed.

Lemma b64_iteration_last alpha alpha_cum beta T spectrogram target_std gc
      audio w a b ac t :
  nth_error alpha 0 = Some a -> nth_error beta 0 = Some b ->
  nth_error alpha_cum 0 = Some ac -> nth_error T 0 = Some t ->
  iteration G randn model dtype alpha alpha_cum beta T
            spectrogram target_std gc 0 audio w
  = Ok (clamp (denoise dtype a b ac (model audio spectrogram t gc) audio) (-1) 1,
        World (rng w) (trace w ++ [Forward t])).
Proof.
  intros Ha Hb Hac Ht. unfold iteration, bind.
  rewrite (b64_getitem_some _ _ _ _ Ha), (b64_getitem_some _ _ _ _ Hb),
          (b64_getitem_some _ _ _ _ Hac), (b64_getitem_some _ _ _ _ Ht).
  reflexivity.
Qed.

Lemma b64_iteration_inner alpha alpha_cum beta T spectrogram target_std gc
      n audio w a b ac ac_prev t :
  (0 < n)%nat ->
  nth_error alpha n = Some a -> nth_error beta n = Some b ->
  nth_error alpha_cum n = Some ac -> nth_error T n = Some t ->
  nth_error alpha_cum (n - 1) = Some ac_prev ->
  let denoised := denoise dtype a b ac (model audio spectrogram t gc) audio in
  let draw := randn (rng w) (shape_of denoised) in
  let sigma := pow_half ((1 - ac_prev) / (1 - ac) * b) in
  iteration G randn model dtype alpha alpha_cum beta T
            spectrogram target_std gc n audio w
  = Ok (clamp (add dtype denoised
                   (scale dtype sigma (mul dtype (fst draw) target_std)))
              (-1) 1,
        World (snd draw) (trace w ++ [Forward t; Randn (shape_of denoised)])).
Proof.
  intros Hn Ha Hb Hac Ht Hprev denoised draw sigma. unfold iteration, bind.
  rewrite (b64_getitem_some _ _ _ _ Ha), (b64_getitem_some _ _ _ _ Hb),
          (b64_getitem_some _ _ _ _ Hac), (b64_getitem_some _ _ _ _ Ht).
  cbn [call_model rng trace].
  destruct n as [|n]; [lia|]. cbn [Nat.ltb Nat.leb].
  unfold randn_like, torch_randn. cbn [rng trace].
  fold (denoise dtype a b ac (model audio spectrogram t gc) audio).
  fold denoised. fold draw. destruct draw as [z g']. cbn [fst snd].
  rewrite (b64_getitem_some _ _ _ _ Hprev), (b64_getitem_some _ _ _ _ Hac),
          (b64_getitem_some _ _ _ _ Hb).
  unfold ret. rewrite <- app_assoc. reflexivity.
Qed.

Lemma b64_denoise_shape s a b ac spectrogram t gc audio :
  predicts_audio_shape model -> has_shape s audio ->
  has_shape s (denoise dtype a b ac (model audio spectrogram t gc) audio).
Proof.
  intros Hm Hs. unfold denoise, scale, sub.
  apply b64_has_shape_tmap, b64_has_shape_tzip; [exact Hs|].
  apply b64_has_shape_tmap. now apply Hm.
Qed.

(** With tensors of one shape and its indices in range, a step returns,
    and returns a tensor of that shape. *)
Lemma b64_iteration_total alpha alpha_cum beta T spectrogram target_std gc
      s n audio w :
  draws_requested_shape randn -> predicts_audio_shape model ->
  has_shape s audio -> has_shape s target_std ->
  (n < length alpha)%nat -> (n < length beta)%nat ->
  (n < length alpha_cum)%nat -> (n < length T)%nat ->
  exists out w',
    iteration G randn model dtype alpha alpha_cum beta T
              spectrogram target_std gc n audio w = Ok (out, w')
    /\ has_shape s out.
Proof.
  intros Hr Hm Hs Hstd Ha Hb Hac Ht.
  destruct (nth_error alpha n) as [a|] eqn:Ea; [|apply nth_error_None in Ea; lia].
  destruct (nth_error beta n) as [b|] eqn:Eb; [|apply nth_error_None in Eb; lia].
  destruct (nth_error alpha_cum n) as [ac|] eqn:Eac;
    [|apply nth_error_None in Eac; lia].
  destruct (nth_error T n) as [t|] eqn:Et; [|apply nth_error_None in Et; lia].
  pose proof (b64_denoise_shape s a b ac spectrogram t gc audio Hm Hs) as Hden.
  destruct n as [|n].
  - rewrite (b64_iteration_last _ _ _ _ _ _ _ _ _ _ _ _ _ Ea Eb Eac Et).
    eexists. eexists. split; [reflexivity|]. now apply b64_has_shape_tmap.
  - destruct (nth_error alpha_cum (S n - 1)) as [ac_prev|] eqn:Ep;
      [|apply nth_error_None in Ep; lia].
    rewrite (b64_iteration_inner _ _ _ _ _ _ _ _ _ _ _ _ _ _ _ (Nat.lt_0_succ n)
                                 Ea Eb Eac Et Ep).
    eexists. eexists. split; [reflexivity|].
    apply b64_has_shape_tmap. unfold add, mul, scale.
    apply b64_has_shape_tzip; [exact Hden|]. apply b64_has_shape_tmap.
    apply b64_has_shape_tzip; [|exact Hstd].
    apply (b64_has_shape_like s _ _ Hden). apply Hr.
Qed.

Lemma b64_for_each_total alpha alpha_cum beta T spectrogram target_std gc s :
  draws_requested_shape randn -> predicts_audio_shape model ->
  has_shape s target_std ->
  forall steps audio w,
    has_shape s audio ->
    Forall (fun n => (n < length alpha)%nat /\ (n < length beta)%nat
                     /\ (n < length alpha_cum)%nat /\ (n < length T)%nat) steps ->
    exists out w',
      for_each G steps
               (iteration G randn model dtype alpha alpha_cum beta T
                          spectrogram target_std gc) audio w
      = Ok (out, w')
      /\ has_shape s out.
Proof.
  intros Hr Hm Hstd.
  induction steps as [|n steps IH]; intros audio w Hs Hall; simpl.
  - unfold ret. eauto.
  - inversion Hall as [|? ? (Ha & Hb & Hac & Ht) Hrest]; subst.
    destruct (b64_iteration_total alpha alpha_cum beta T spectrogram target_std
                gc s n audio w Hr Hm Hs Hstd Ha Hb Hac Ht)
      as (mid & w1 & Hstep & Hmid).
    unfold bind. rewrite Hstep. now apply IH.
Qed.

(** A run of one step or more ends with a clamp. *)
Lemma b64_for_each_clamped alpha alpha_cum beta T spectrogram target_std gc
      steps audio w out w' :
  steps <> [] ->
  for_each G steps
           (iteration G randn model dtype alpha alpha_cum beta T
                      spectrogram target_std gc) audio w = Ok (out, w') ->
  tForall unit_or_nan out.
Proof.
  intros Hne Hrun.
  destruct (exists_last Hne) as (init & n & ->).
  rewrite b64_for_each_app in Hrun.
  destruct (for_each G init _ audio w) as [[mid w1]|e]; [|discriminate].
  simpl in Hrun. apply b64_bind_ok in Hrun.
  destruct Hrun as (a & w2 & Hstep & Hret).
  unfold ret in Hret. injection Hret as <- _.
  apply b64_iteration_clamped in Hstep. destruct Hstep as [pre ->].
  apply clamp_unit_or_nan.
Qed.

End WithCollaborators.

End Binary64Facts.

(** ** Properties of the sampling loop in binary64 *)
Module Binary64Theorems.
Import PrimFloat.
Import Torch.
Import Binary64 Binary64Facts.
#[local] Set Warnings "-inexact-float".
Local Open Scope float_scope.

Section WithCollaborators.
Variable G : Type.
Variable randn : G -> shape -> tensor * G.
Variable model : tensor -> tensor -> float -> option tensor -> tensor.
Variable dtype : float -> float.

(** C4, amended.  After every iteration of the loop (after any non-empty run
    of its steps, the whole loop included) no element of the audio tensor is
    below -1.0 or above 1.0: each is in [-1.0, 1.0] or is NaN, which
    [torch.clamp] leaves as it is.  And the run does return, with a tensor
    of the shape of the audio, when the audio and [target_std] have one
    shape, the network and the generator keep to it, and the indices the
    steps read are in range. *)
Theorem clamping_invariant alpha alpha_cum beta T spectrogram target_std gc
        steps audio w :
  steps <> [] ->
  let step := iteration G randn model dtype alpha alpha_cum beta T
                        spectrogram target_std gc in
  (forall out w', for_each G steps step audio w = Ok (out, w') ->
                  tForall unit_or_nan out)
  /\ (forall s,
        draws_requested_shape randn -> predicts_audio_shape model ->
        has_shape s audio -> has_shape s target_std ->
        Forall (fun n => (n < length alpha)%nat /\ (n < length beta)%nat
                         /\ (n < length alpha_cum)%nat /\ (n < length T)%nat)
               steps ->
        exists out w',
          for_each G steps step audio w = Ok (out, w')
          /\ has_shape s out
          /\ tForall unit_or_nan out).
Proof.
  intros Hne step. split.
  - intros out w' Hrun.
    exact (b64_for_each_clamped G randn model dtype alpha alpha_cum beta T
             spectrogram target_std gc steps audio w out w' Hne Hrun).
  - intros s Hr Hm Hs Hstd Hall.
    destruct (b64_for_each_total G randn model dtype alpha alpha_cum beta T
                spectrogram target_std gc s Hr Hm Hstd steps audio w Hs Hall)
      as (out & w' & Hrun & Hshape).
    exists out, w'. split; [exact Hrun|]. split; [exact Hshape|].
    exact (b64_for_each_clamped G randn model dtype alpha alpha_cum beta T
             spectrogram target_std gc steps audio w out w' Hne Hrun).
Qed.

(** C8, amended.  With an inference schedule of one step [b], a time warp
    that has an entry [t] for step 0, and a network whose prediction has the
    shape of the audio, the loop calls the network exactly once, at [t],
    draws no noise (the generator is left as it was) and returns the clamped
    update, a tensor of the shape of the audio in which every element is in
    [-1.0, 1.0] or is NaN. *)
Theorem single_step_run b t T_rest spectrogram target_std gc s audio w :
  predicts_audio_shape model -> has_shape s audio ->
  let out := clamp (denoise dtype (1 - b) b (1 - b)
                            (model audio spectrogram t gc) audio) (-1) 1 in
  reverse_diffusion G randn model dtype (alpha_of [b]) (alpha_cum_of [b]) [b]
                    (t :: T_rest) spectrogram target_std gc audio w
  = Ok (out, World (rng w) (trace w ++ [Forward t]))
  /\ has_shape s out
  /\ tForall unit_or_nan out.
Proof.
  intros Hm Hs out. split; [reflexivity|]. split.
  - apply b64_has_shape_tmap. now apply b64_denoise_shape.
  - apply clamp_unit_or_nan.
Qed.

End WithCollaborators.

Lemma clamping_invariant_witness :
  exists out w',
    reverse_diffusion nat half_randn zero_model to_binary32
                      (alpha_of [0.5; 0.5]) (alpha_cum_of [0.5; 0.5])
                      [0.5; 0.5] [0; 1]
                      [[[0]]] [[[1]]] None [[[3]]] (World 7%nat [])
    = Ok (out, w')
    /\ has_shape (1, 1, 1)%nat out
    /\ tForall unit_or_nan out.
Proof.
  assert (Hne : range_down 2 <> []) by discriminate.
  destruct (clamping_invariant nat half_randn zero_model to_binary32
              (alpha_of [0.5; 0.5]) (alpha_cum_of [0.5; 0.5])
              [0.5; 0.5] [0; 1] [[[0]]] [[[1]]] None
              (range_down 2) [[[3]]] (World 7%nat []) Hne)
    as [_ Hreturns].
  apply (Hreturns (1, 1, 1)%nat half_randn_shape b64_zero_model_shape).
  - repeat constructor.
  - repeat constructor.
  - repeat constructor.
Defined.

(** C4 as written fails on the schedule [1e-20, 0.5], whose betas are in
    (0,1): [1 - 1e-20] rounds to 1, so at step 0 [1 - alpha_cum[0]] is 0,
    [c2] is infinite, [c2 * 0] is NaN for the zero denoiser, and NaN goes
    through [torch.clamp]: [main] returns an audio tensor whose element is
    NaN, which is not in [-1, 1]. *)
Lemma clamped_audio_can_be_nan :
  valid [1e-20; 0.5] = true
  /\ alpha_cum_of [1e-20; 0.5] = [1; 0.5]
  /\ build_T [1e-20; 0.5] [1e-20; 0.5] = [0; 1]
  /\ main_sample nat half_randn zero_model to_binary32 [1e-20; 0.5] 1 1
                 [[[0]]] [[[1]]] None (World 0%nat [])
     = Ok ([[[nan]]],
           World 2%nat [Randn (1, 1, 1)%nat; Forward 1;
                        Randn (1, 1, 1)%nat; Forward 0])
  /\ (-1 <=? nan) = false
  /\ (nan <=? 1) = false.
Proof. repeat split; vm_compute; reflexivity. Qed.

Lemma single_step_run_witness :
  exists out,
    reverse_diffusion nat half_randn zero_model to_binary32
                      (alpha_of [0.5]) (alpha_cum_of [0.5]) [0.5] [0]
                      [[[0]]] [[[1]]] None [[[3]]] (World 7%nat [])
    = Ok (out, World 7%nat [Forward 0])
    /\ has_shape (1, 1, 1)%nat out
    /\ tForall unit_or_nan out.
Proof.
  eexists.
  apply (single_step_run nat half_randn zero_model to_binary32
           0.5 0 [] [[[0]]] [[[1]]] None (1, 1, 1)%nat [[[3]]] (World 7%nat [])
           b64_zero_model_shape).
  repeat constructor.
Defined.

(** C8 as written fails in [main]: a one-step noise schedule leaves [T]
    empty, and the loop raises at [T[0]] before it calls the denoiser, in
    exact arithmetic and in binary64 alike.  And where [T] does have an
    entry, the clamped audio need not be in [-1, 1]: for the step [1e-20],
    [c2] is infinite and the audio returned with the zero denoiser is NaN. *)
Lemma single_step_fails :
  (let p := Driver.Params [1 / 2]%R [1 / 2]%R 1 1 None in
   exists s,
     Driver.main_schedules (Driver.Args None false None) p = Ok (p, s)
     /\ Driver.beta s = [1 / 2]%R
     /\ Driver.T s = []
     /\ Driver.main_sample nat Stub.randn Stub.zero_model p s
                           (Stub.one_sample 0) (Stub.one_sample 1) None
                           (Sampler.World 7%nat [])
        = Raise IndexError)
  /\ main_sample nat half_randn zero_model to_binary32 [0.5] 1 1
                 [[[0]]] [[[1]]] None (World 0%nat [])
     = Raise IndexError
  /\ reverse_diffusion nat half_randn zero_model to_binary32
                       (alpha_of [1e-20]) (alpha_cum_of [1e-20]) [1e-20] [0]
                       [[[0]]] [[[1]]] None [[[0.5]]] (World 0%nat [])
     = Ok ([[[nan]]], World 0%nat [Forward 0]).
Proof.
  split; [|split; vm_compute; reflexivity].
  eexists. split; [reflexivity|]. repeat split.
Qed.

End Binary64Theorems.
